(** * interactive-map: the logic of [script.js], embedded and verified

    [script.js] is one [DOMContentLoaded] handler.  It loads a list of
    location records, creates one Leaflet marker per record, mirrors the
    filtered records into a layer group and a sidebar list, and drives a
    "locate me" button.

    The embedding keeps the program's own shape:
    - a text is the [string] of its UTF-8 bytes.  Concatenation, [===]
      and [includes] are the same on these bytes as on the host's code
      units, and so is [trim], which is defined here with the whole white
      space of the language.  [toLowerCase] and the order used by [sort]
      are left to the host: they are parameters, and what is proved holds
      for every such function;
    - numbers are binary64 floats, as in JavaScript; the program never
      computes with a coordinate, it only hands it to Leaflet or prints it;
    - the DOM and the Leaflet map are one explicit [State] record that the
      handlers transform; [forEach] loops are folds over that state;
    - calls into Leaflet are recorded as data (which view was requested,
      which layers a group holds), never interpreted;
    - time is a clock in milliseconds kept in the state; a timer runs when
      the clock reaches its due time.

    The options of the category menu are computed beside the state, as
    a function of the loaded records.

    Left out, because nothing below depends on them: the year in the
    footer, the tile layer, the bounce of a clicked marker, the keyboard
    shortcut and the injected style sheet. *)

From Stdlib Require Import String Ascii List Bool NArith ZArith Lia.
From Stdlib Require Import Sorting.Sorted Sorting.Permutation.
From Stdlib Require Import Floats.PrimFloat.
Import ListNotations.

Set Warnings "-inexact-float".
Local Open Scope string_scope.
Local Open Scope list_scope.

(** ** Host string functions *)

Module Js.

(** The double quote character, code 34. *)
Definition dq : ascii := "034"%char.

(** A one-character string holding the double quote. *)
Definition q : string := String dq EmptyString.

(** The bytes of a string. *)
Fixpoint chars (s : string) : list ascii :=
  match s with
  | EmptyString => []
  | String c r => c :: chars r
  end.

(** The string made of the bytes [l]. *)
Fixpoint of_chars (l : list ascii) : string :=
  match l with
  | [] => EmptyString
  | c :: r => String c (of_chars r)
  end.

(** The code of a byte. *)
Definition code (a : ascii) : N := N_of_ascii a.

(** White space of one byte: TAB, LF, VT, FF, CR and SPACE. *)
Definition space1 (a : ascii) : bool :=
  ((9 <=? code a) && (code a <=? 13) || (code a =? 32))%N.

(** White space of two bytes: U+00A0, the bytes 194 160. *)
Definition space2 (a b : ascii) : bool :=
  ((code a =? 194) && (code b =? 160))%N.

(** White space of three bytes: U+1680 (225 154 128), U+2000 to U+200A
    (226 128 128 to 226 128 138), U+2028, U+2029 and U+202F (226 128 168,
    169 and 175), U+205F (226 129 159), U+3000 (227 128 128) and U+FEFF
    (239 187 191).  With the two above these are the white space and the
    line terminators that [trim] strips. *)
Definition space3 (a b c : ascii) : bool :=
  ((code a =? 225) && (code b =? 154) && (code c =? 128)
   || (code a =? 226) && (code b =? 128)
      && ((128 <=? code c) && (code c <=? 138)
          || (code c =? 168) || (code c =? 169) || (code c =? 175))
   || (code a =? 226) && (code b =? 129) && (code c =? 159)
   || (code a =? 227) && (code b =? 128) && (code c =? 128)
   || (code a =? 239) && (code b =? 187) && (code c =? 191))%N.

(** Dropping from the front of [l] every character that [p1], [p2] or [p3]
    recognises by its one, two or three bytes. *)
Fixpoint strip (p1 : ascii -> bool) (p2 : ascii -> ascii -> bool)
         (p3 : ascii -> ascii -> ascii -> bool) (l : list ascii)
  : list ascii :=
  match l with
  | [] => []
  | a :: r =>
      if p1 a then strip p1 p2 p3 r
      else
        match r with
        | [] => l
        | b :: r2 =>
            if p2 a b then strip p1 p2 p3 r2
            else
              match r2 with
              | [] => l
              | c :: r3 => if p3 a b c then strip p1 p2 p3 r3 else l
              end
        end
  end.

(** [String.prototype.trimStart]. *)
Definition trimStart (s : string) : string :=
  of_chars (strip space1 space2 space3 (chars s)).

(** [String.prototype.trimEnd]: the same from the other end, on the
    reversed bytes. *)
Definition trimEnd (s : string) : string :=
  of_chars
    (rev (strip space1 (fun a b => space2 b a) (fun a b c => space3 c b a)
                (rev (chars s)))).

(** [String.prototype.trim]. *)
Definition trim (s : string) : string := trimEnd (trimStart s).

(** [s.startsWith(p)]. *)
Fixpoint startsWith (s p : string) {struct p} : bool :=
  match p, s with
  | EmptyString, _ => true
  | String a p', String b s' => Ascii.eqb a b && startsWith s' p'
  | String _ _, EmptyString => false
  end.

(** [s.includes(needle)]: [needle] occurs at some position of [s]. *)
Fixpoint includes (s needle : string) : bool :=
  startsWith s needle ||
  match s with
  | EmptyString => false
  | String _ r => includes r needle
  end.

(** Truthiness of a string value: only the empty string is falsy. *)
Definition truthy (s : string) : bool :=
  match s with
  | EmptyString => false
  | String _ _ => true
  end.

(** [toLowerCase] on one byte of ASCII text. *)
Definition lower_char (c : ascii) : ascii :=
  if ((65 <=? code c) && (code c <=? 90))%N
  then ascii_of_N (code c + 32) else c.

(** [String.prototype.toLowerCase] as it is on ASCII text.  This is the
    host's function on the texts of the examples; nothing else below is
    about it. *)
Fixpoint toLowerCaseAscii (s : string) : string :=
  match s with
  | EmptyString => EmptyString
  | String c r => String (lower_char c) (toLowerCaseAscii r)
  end.

End Js.

Import Js.

(** ** Escaping (script.js, line 38) *)

(** The replacement table of [escapeHtml], applied to one character. *)
Definition escape_char (c : ascii) : string :=
  if Ascii.eqb c "&" then "&amp;"
  else if Ascii.eqb c "<" then "&lt;"
  else if Ascii.eqb c ">" then "&gt;"
  else if Ascii.eqb c dq then "&quot;"
  else if Ascii.eqb c "'" then "&#39;"
  else String c EmptyString.

(** [escapeHtml]: each of the five markup characters is replaced by its
    entity, every other character is kept. *)
Fixpoint escapeHtml (s : string) : string :=
  match s with
  | EmptyString => EmptyString
  | String c r => escape_char c ++ escapeHtml r
  end.

(** ** Data model *)

(** One entry of [data/locations.json]. *)
Record LocationRecord := {
  name : string;
  category : string;
  description : string;
  lat : float;
  lng : float;
  image : option string
}.

(** A coordinate pair [[lat, lng]] handed to Leaflet. *)
Record LatLng := { ll_lat : float; ll_lng : float }.

(** [`${loc.image}`]: an absent field prints as [undefined]. *)
Definition image_text (loc : LocationRecord) : string :=
  match image loc with
  | Some url => url
  | None => "undefined"
  end.

(** [loc.image ? ... : ...]: absent and empty are both falsy. *)
Definition image_truthy (loc : LocationRecord) : bool :=
  match image loc with
  | Some url => truthy url
  | None => false
  end.

(** ** Printing numbers

    [`${loc.lat}`] prints a number.  Number-to-string conversion belongs to
    the host; whatever the number, its text is made of the characters
    below only (digits, sign, point, exponent mark, and the letters of
    [Infinity] and [NaN]). *)

Inductive NumChar :=
| N0 | N1 | N2 | N3 | N4 | N5 | N6 | N7 | N8 | N9
| NDot | NMinus | NPlus | NExp
| NI | Nn | Nf | Ni | Nt | Ny | NN | Na.

Definition num_char (d : NumChar) : ascii :=
  match d with
  | N0 => "0" | N1 => "1" | N2 => "2" | N3 => "3" | N4 => "4"
  | N5 => "5" | N6 => "6" | N7 => "7" | N8 => "8" | N9 => "9"
  | NDot => "." | NMinus => "-" | NPlus => "+" | NExp => "e"
  | NI => "I" | Nn => "n" | Nf => "f" | Ni => "i" | Nt => "t" | Ny => "y"
  | NN => "N" | Na => "a"
  end%char.

Fixpoint num_text (ds : list NumChar) : string :=
  match ds with
  | [] => EmptyString
  | d :: r => String (num_char d) (num_text r)
  end.

(** ** The Leaflet objects the script creates *)

(** [L.marker([lat, lng], {title})] with the popup bound to it.  The
    identity of the object is its position in the [markers] array. *)
Record Marker := {
  marker_id : nat;
  marker_latlng : LatLng;
  marker_title : string;
  marker_popup : string
}.

(** An element [{loc, marker}] of the [markers] array. *)
Record MarkerEntry := { loc : LocationRecord; marker : Marker }.

(** [L.circleMarker([lat, lng], {radius, color, fillColor, fillOpacity})];
    [circle_id] is the identity of the object. *)
Record CircleMarker := {
  circle_id : nat;
  circle_latlng : LatLng;
  radius : Z;
  color : string;
  fillColor : string;
  fillOpacity : float
}.

(** [L.featureGroup(ms).getBounds()] and [bounds.pad(ratio)], recorded as
    requested. *)
Inductive Bounds :=
| Spanning (points : list LatLng)
| Pad (b : Bounds) (ratio : float).

(** What the map was last asked to show. *)
Inductive View :=
| SetView (center : LatLng) (zoom : Z) (animate : bool)
| FitBounds (b : Bounds).

(** ** The DOM elements the script touches *)

(** An [li] of the sidebar; [onclick] is the marker its click listener
    has captured. *)
Record ListItem := {
  className : string;
  innerHTML : string;
  onclick : Marker
}.

Record Button := { disabled : bool; textContent : string }.

(** A pending [setTimeout] of the locate handler: when [due] is reached
    the callback removes [target] and resets the button. *)
Record Timer := { due : Z; target : CircleMarker }.

(** ** Program state *)

Record State := {
  markers : list MarkerEntry;        (* const markers *)
  markerGroup : list Marker;         (* layers of markerGroup, in order *)
  locationList : list ListItem;      (* children of #locationList *)
  view : View;                       (* the view of the map *)
  overlays : list CircleMarker;      (* circle markers added to the map *)
  openPopup : option Marker;         (* the marker whose popup is open *)
  searchInput : string;              (* searchInput.value *)
  categoryFilter : string;           (* categoryFilter.value *)
  locateBtn : Button;
  alerts : list string;              (* messages shown by alert, oldest first *)
  geolocation : bool;                (* navigator.geolocation is there *)
  pending : nat;                     (* position requests in flight *)
  timers : list Timer;
  now : Z;                           (* the clock, in milliseconds *)
  nextId : nat                       (* next object identity *)
}.

Definition set_markers v st :=
  {| markers := v; markerGroup := markerGroup st;
     locationList := locationList st; view := view st;
     overlays := overlays st; openPopup := openPopup st;
     searchInput := searchInput st; categoryFilter := categoryFilter st;
     locateBtn := locateBtn st; alerts := alerts st;
     geolocation := geolocation st; pending := pending st;
     timers := timers st; now := now st; nextId := nextId st |}.

Definition set_markerGroup v st :=
  {| markers := markers st; markerGroup := v;
     locationList := locationList st; view := view st;
     overlays := overlays st; openPopup := openPopup st;
     searchInput := searchInput st; categoryFilter := categoryFilter st;
     locateBtn := locateBtn st; alerts := alerts st;
     geolocation := geolocation st; pending := pending st;
     timers := timers st; now := now st; nextId := nextId st |}.

Definition set_locationList v st :=
  {| markers := markers st; markerGroup := markerGroup st;
     locationList := v; view := view st;
     overlays := overlays st; openPopup := openPopup st;
     searchInput := searchInput st; categoryFilter := categoryFilter st;
     locateBtn := locateBtn st; alerts := alerts st;
     geolocation := geolocation st; pending := pending st;
     timers := timers st; now := now st; nextId := nextId st |}.

Definition set_view v st :=
  {| markers := markers st; markerGroup := markerGroup st;
     locationList := locationList st; view := v;
     overlays := overlays st; openPopup := openPopup st;
     searchInput := searchInput st; categoryFilter := categoryFilter st;
     locateBtn := locateBtn st; alerts := alerts st;
     geolocation := geolocation st; pending := pending st;
     timers := timers st; now := now st; nextId := nextId st |}.

Definition set_overlays v st :=
  {| markers := markers st; markerGroup := markerGroup st;
     locationList := locationList st; view := view st;
     overlays := v; openPopup := openPopup st;
     searchInput := searchInput st; categoryFilter := categoryFilter st;
     locateBtn := locateBtn st; alerts := alerts st;
     geolocation := geolocation st; pending := pending st;
     timers := timers st; now := now st; nextId := nextId st |}.

Definition set_openPopup v st :=
  {| markers := markers st; markerGroup := markerGroup st;
     locationList := locationList st; view := view st;
     overlays := overlays st; openPopup := v;
     searchInput := searchInput st; categoryFilter := categoryFilter st;
     locateBtn := locateBtn st; alerts := alerts st;
     geolocation := geolocation st; pending := pending st;
     timers := timers st; now := now st; nextId := nextId st |}.

Definition set_searchInput v st :=
  {| markers := markers st; markerGroup := markerGroup st;
     locationList := locationList st; view := view st;
     overlays := overlays st; openPopup := openPopup st;
     searchInput := v; categoryFilter := categoryFilter st;
     locateBtn := locateBtn st; alerts := alerts st;
     geolocation := geolocation st; pending := pending st;
     timers := timers st; now := now st; nextId := nextId st |}.

Definition set_categoryFilter v st :=
  {| markers := markers st; markerGroup := markerGroup st;
     locationList := locationList st; view := view st;
     overlays := overlays st; openPopup := openPopup st;
     searchInput := searchInput st; categoryFilter := v;
     locateBtn := locateBtn st; alerts := alerts st;
     geolocation := geolocation st; pending := pending st;
     timers := timers st; now := now st; nextId := nextId st |}.

Definition set_locateBtn v st :=
  {| markers := markers st; markerGroup := markerGroup st;
     locationList := locationList st; view := view st;
     overlays := overlays st; openPopup := openPopup st;
     searchInput := searchInput st; categoryFilter := categoryFilter st;
     locateBtn := v; alerts := alerts st;
     geolocation := geolocation st; pending := pending st;
     timers := timers st; now := now st; nextId := nextId st |}.

Definition set_alerts v st :=
  {| markers := markers st; markerGroup := markerGroup st;
     locationList := locationList st; view := view st;
     overlays := overlays st; openPopup := openPopup st;
     searchInput := searchInput st; categoryFilter := categoryFilter st;
     locateBtn := locateBtn st; alerts := v;
     geolocation := geolocation st; pending := pending st;
     timers := timers st; now := now st; nextId := nextId st |}.

Definition set_pending v st :=
  {| markers := markers st; markerGroup := markerGroup st;
     locationList := locationList st; view := view st;
     overlays := overlays st; openPopup := openPopup st;
     searchInput := searchInput st; categoryFilter := categoryFilter st;
     locateBtn := locateBtn st; alerts := alerts st;
     geolocation := geolocation st; pending := v;
     timers := timers st; now := now st; nextId := nextId st |}.

Definition set_timers v st :=
  {| markers := markers st; markerGroup := markerGroup st;
     locationList := locationList st; view := view st;
     overlays := overlays st; openPopup := openPopup st;
     searchInput := searchInput st; categoryFilter := categoryFilter st;
     locateBtn := locateBtn st; alerts := alerts st;
     geolocation := geolocation st; pending := pending st;
     timers := v; now := now st; nextId := nextId st |}.

Definition set_now v st :=
  {| markers := markers st; markerGroup := markerGroup st;
     locationList := locationList st; view := view st;
     overlays := overlays st; openPopup := openPopup st;
     searchInput := searchInput st; categoryFilter := categoryFilter st;
     locateBtn := locateBtn st; alerts := alerts st;
     geolocation := geolocation st; pending := pending st;
     timers := timers st; now := v; nextId := nextId st |}.

Definition set_nextId v st :=
  {| markers := markers st; markerGroup := markerGroup st;
     locationList := locationList st; view := view st;
     overlays := overlays st; openPopup := openPopup st;
     searchInput := searchInput st; categoryFilter := categoryFilter st;
     locateBtn := locateBtn st; alerts := alerts st;
     geolocation := geolocation st; pending := pending st;
     timers := timers st; now := now st; nextId := v |}.

(** ** Leaflet and DOM primitives, as state transformers *)

(** [markerGroup.clearLayers()]: every marker leaves the map, and a
    marker that leaves the map closes its popup. *)
Definition clearLayers (st : State) : State :=
  set_openPopup None (set_markerGroup [] st).

(** [markerGroup.addLayer(m)]. *)
Definition addLayer (m : Marker) (st : State) : State :=
  set_markerGroup (markerGroup st ++ [m]) st.

(** [locationList.appendChild(li)]. *)
Definition appendChild (li : ListItem) (st : State) : State :=
  set_locationList (locationList st ++ [li]) st.

(** [map.setView(center, zoom, {animate})]. *)
Definition setView (c : LatLng) (zoom : Z) (animate : bool) (st : State)
  : State :=
  set_view (SetView c zoom animate) st.

(** [map.fitBounds(b)]. *)
Definition fitBounds (b : Bounds) (st : State) : State :=
  set_view (FitBounds b) st.

(** [L.featureGroup(ms).getBounds()]. *)
Definition getBounds (ms : list Marker) : Bounds :=
  Spanning (map marker_latlng ms).

(** [alert(msg)]. *)
Definition alert (msg : string) (st : State) : State :=
  set_alerts (alerts st ++ [msg]) st.

(** [layer.addTo(map)] for a circle marker. *)
Definition addTo (c : CircleMarker) (st : State) : State :=
  set_overlays (overlays st ++ [c]) st.

(** [map.removeLayer(c)]: the layer with the identity of [c] leaves the
    map. *)
Definition removeLayer (c : CircleMarker) (st : State) : State :=
  set_overlays
    (filter (fun o => negb (Nat.eqb (circle_id o) (circle_id c)))
            (overlays st)) st.

(** [setTimeout(callback, delay)] for the callback of the locate handler
    that has captured [c]. *)
Definition setTimeout (c : CircleMarker) (delay : Z) (st : State) : State :=
  set_timers (timers st ++ [{| due := (now st + delay)%Z; target := c |}]) st.

(** [arr.length] used as a condition. *)
Definition nonempty {A : Type} (l : list A) : bool :=
  match l with
  | [] => false
  | _ :: _ => true
  end.

(** ** The sidebar list (script.js, lines 74-92) *)

(** The template assigned to [li.innerHTML]. *)
Definition item_html (l : LocationRecord) : string :=
"
        <img class=" ++ q ++ "location-thumb" ++ q ++ " src=" ++ q
  ++ image_text l ++ q ++ " alt=" ++ q ++ escapeHtml (name l) ++ q ++ " />
        <div>
          <div class=" ++ q ++ "location-title" ++ q ++ ">"
  ++ escapeHtml (name l) ++ "</div>
          <div class=" ++ q ++ "location-cat" ++ q ++ ">"
  ++ escapeHtml (category l) ++ "</div>
        </div>
      ".

(** The [li] built for one entry. *)
Definition make_item (e : MarkerEntry) : ListItem :=
  {| className := "location-item";
     innerHTML := item_html (loc e);
     onclick := marker e |}.

(** [renderList(items)]. *)
Definition renderList (items : list MarkerEntry) (st : State) : State :=
  fold_left (fun s e => appendChild (make_item e) s) items
            (set_locationList [] st).

(** The click listener of a list entry. *)
Definition item_click (li : ListItem) (st : State) : State :=
  setView (marker_latlng (onclick li)) 15 true
          (set_openPopup (Some (onclick li)) st).

(** ** The host *)

Section Host.

(** [String.prototype.toLowerCase], whatever the host makes of it. *)
Variable toLowerCase : string -> string.

(** The order of [Array.prototype.sort] without a comparison function:
    [precedes a b] when [a] is [b] or comes before it, code unit by code
    unit. *)
Variable precedes : string -> string -> bool.

(** The empty string has no letter to lower. *)
Hypothesis toLowerCase_empty : toLowerCase "" = "".

(** ** Search and filter (script.js, lines 97-115) *)

(** The callback given to [markers.filter], for the trimmed and
    lowercased query [qy] and the selected category [cat]. *)
Definition matches (qy cat : string) (e : MarkerEntry) : bool :=
  let l := loc e in
  let matchesQ :=
    negb (truthy qy)
    || includes
         (toLowerCase (name l ++ " " ++ category l ++ " " ++ description l))
         qy in
  let matchesCat := negb (truthy cat) || String.eqb (category l) cat in
  matchesQ && matchesCat.

(** The filter engine: lines 98 to 104, from the raw text of the search
    field and the value of the category menu. *)
Definition filterEngine (query cat : string) (ms : list MarkerEntry)
  : list MarkerEntry :=
  let qy := toLowerCase (trim query) in
  filter (matches qy cat) ms.

(** [applyFilters()]. *)
Definition applyFilters (st : State) : State :=
  let filtered :=
    filterEngine (searchInput st) (categoryFilter st) (markers st) in
  let st1 := clearLayers st in
  let st2 := fold_left (fun s e => addLayer (marker e) s) filtered st1 in
  let st3 := renderList filtered st2 in
  if nonempty filtered
  then fitBounds (Pad (getBounds (map marker filtered)) 0.12) st3
  else st3.

(** ** Geolocation (script.js, lines 121-140) *)

(** The label of the button at rest. *)
Definition idle_label : string := "📍 My location".

(** The callback given to [setTimeout] on line 134. *)
Definition timer_callback (userMarker : CircleMarker) (st : State) : State :=
  let st1 := removeLayer userMarker st in
  let st2 := set_locateBtn
               {| disabled := false;
                  textContent := textContent (locateBtn st1) |} st1 in
  set_locateBtn
    {| disabled := disabled (locateBtn st2); textContent := idle_label |} st2.

(** The success callback of [getCurrentPosition]. *)
Definition on_position (latitude longitude : float) (st : State) : State :=
  let c := {| ll_lat := latitude; ll_lng := longitude |} in
  let st1 := setView c 14 true st in
  let userMarker :=
    {| circle_id := nextId st1; circle_latlng := c; radius := 8;
       color := "#2b7cff"; fillColor := "#2b7cff"; fillOpacity := 0.8 |} in
  let st2 := addTo userMarker (set_nextId (S (nextId st1)) st1) in
  setTimeout userMarker 6000 st2.

(** The error callback of [getCurrentPosition]. *)
Definition on_position_error (message : string) (st : State) : State :=
  let st1 := alert ("Could not get location: " ++ message) st in
  let st2 := set_locateBtn
               {| disabled := false;
                  textContent := textContent (locateBtn st1) |} st1 in
  set_locateBtn
    {| disabled := disabled (locateBtn st2); textContent := idle_label |} st2.

(** The click listener of the locate button. *)
Definition locate_click (st : State) : State :=
  if negb (geolocation st)
  then alert "Geolocation not supported by this browser." st
  else
    let st1 := set_locateBtn
                 {| disabled := true;
                    textContent := textContent (locateBtn st) |} st in
    let st2 := set_locateBtn
                 {| disabled := disabled (locateBtn st1);
                    textContent := "Locating..." |} st1 in
    set_pending (S (pending st2)) st2.

(** ** The event loop *)

(** Time passes: the clock advances by [ms] and every timer that has come
    due runs, oldest first. *)
Definition elapse (ms : Z) (st : State) : State :=
  let t := (now st + ms)%Z in
  let fired := filter (fun tm => (due tm <=? t)%Z) (timers st) in
  let kept := filter (fun tm => negb (due tm <=? t)%Z) (timers st) in
  fold_left (fun s tm => timer_callback (target tm) s) fired
            (set_timers kept (set_now t st)).

(** What can happen to the page once it is loaded. *)
Inductive Event :=
| SearchInput (value : string)       (* input on the search field *)
| CategoryChange (value : string)    (* change on the category menu *)
| ItemClick (i : nat)                (* click on the i-th list entry *)
| LocateClick                        (* click on the locate button *)
| PositionSuccess (latitude longitude : float)
| PositionError (message : string)
| Elapse (ms : Z).

(** The handler an event runs.  [None]: the event cannot occur in this
    state (no such list entry, a disabled button, no request in flight,
    time running backwards). *)
Definition dispatch (ev : Event) (st : State) : option State :=
  match ev with
  | SearchInput v => Some (applyFilters (set_searchInput v st))
  | CategoryChange v => Some (applyFilters (set_categoryFilter v st))
  | ItemClick i =>
      match nth_error (locationList st) i with
      | Some li => Some (item_click li st)
      | None => None
      end
  | LocateClick =>
      if disabled (locateBtn st) then None else Some (locate_click st)
  | PositionSuccess la lo =>
      match pending st with
      | O => None
      | S n => Some (on_position la lo (set_pending n st))
      end
  | PositionError msg =>
      match pending st with
      | O => None
      | S n => Some (on_position_error msg (set_pending n st))
      end
  | Elapse ms => if 0 <=? ms then Some (elapse ms st) else None
  end%Z.

(** A run of events, in order. *)
Fixpoint run (evs : list Event) (st : State) : option State :=
  match evs with
  | [] => Some st
  | ev :: rest =>
      match dispatch ev st with
      | Some st' => run rest st'
      | None => None
      end
  end.

(** ** Loading (script.js, lines 8-93) *)

Section Loading.

(** The host's number-to-string conversion. *)
Variable numberToString : float -> list NumChar.

(** [createPopupHTML(loc)]. *)
Definition createPopupHTML (l : LocationRecord) : string :=
"
      <div class=" ++ q ++ "popup" ++ q ++ ">
        <h3>" ++ escapeHtml (name l) ++ "</h3>
        <small>" ++ escapeHtml (category l) ++ "</small>
        <p>" ++ escapeHtml (description l) ++ "</p>
        "
  ++ (if image_truthy l
      then "<img src=" ++ q ++ image_text l ++ q ++ " alt=" ++ q
           ++ escapeHtml (name l) ++ q ++ ">"
      else "")
  ++ "
        <p><a href=" ++ q
  ++ "https://www.google.com/maps/search/?api=1&query="
  ++ num_text (numberToString (lat l)) ++ ","
  ++ num_text (numberToString (lng l)) ++ q
  ++ " target=" ++ q ++ "_blank" ++ q ++ " rel=" ++ q ++ "noopener" ++ q
  ++ ">Open in Google Maps</a></p>
      </div>
    ".

(** The body of [locations.forEach] on lines 41 to 55. *)
Definition add_marker (st : State) (l : LocationRecord) : State :=
  let m := {| marker_id := length (markers st);
              marker_latlng := {| ll_lat := lat l; ll_lng := lng l |};
              marker_title := name l;
              marker_popup := createPopupHTML l |} in
  let st1 := addLayer m st in
  set_markers (markers st1 ++ [{| loc := l; marker := m |}]) st1.

(** The page before any record is loaded: the map is centred on
    Manhattan at zoom 12, the button is at rest.  [geo] tells whether the
    browser has location services. *)
Definition start (geo : bool) : State :=
  {| markers := []; markerGroup := []; locationList := [];
     view := SetView {| ll_lat := 40.7831; ll_lng := -73.9712 |} 12 false;
     overlays := []; openPopup := None;
     searchInput := ""; categoryFilter := "";
     locateBtn := {| disabled := false; textContent := idle_label |};
     alerts := []; geolocation := geo; pending := 0;
     timers := []; now := 0; nextId := 0 |}.

(** The [DOMContentLoaded] handler, given the parsed [locations]. *)
Definition init (geo : bool) (locations : list LocationRecord) : State :=
  let st1 := fold_left add_marker locations (start geo) in
  let st2 :=
    if nonempty (markers st1)
    then fitBounds (Pad (getBounds (map marker (markers st1))) 0.12) st1
    else st1 in
  renderList (markers st2) st2.

End Loading.

(** ** What the claims speak about *)

(** [needle] occurs in [hay]. *)
Definition Substring (needle hay : string) : Prop :=
  exists pre post, hay = (pre ++ needle ++ post)%string.

(** [out] is [l] with exactly the elements satisfying [P] kept, each at
    its place. *)
Inductive Kept {A : Type} (P : A -> Prop) : list A -> list A -> Prop :=
| Kept_nil : Kept P [] []
| Kept_take x l out : P x -> Kept P l out -> Kept P (x :: l) (x :: out)
| Kept_drop x l out : ~ P x -> Kept P l out -> Kept P (x :: l) out.

(** [out] is [l] with some elements left out, the others in their
    order. *)
Inductive Subseq {A : Type} : list A -> list A -> Prop :=
| Subseq_nil : Subseq [] []
| Subseq_take x out l : Subseq out l -> Subseq (x :: out) (x :: l)
| Subseq_skip x out l : Subseq out l -> Subseq out (x :: l).

(** The matching rule in the words of the specification: the query
    against the plain concatenation of name, category and description. *)
Definition spec_rule (query cat : string) (l : LocationRecord) : Prop :=
  (query = ""
   \/ Substring (toLowerCase query)
                (toLowerCase (name l ++ category l ++ description l)))
  /\ (cat = "" \/ category l = cat).

(** The matching rule of the code: the query is trimmed and lowercased
    first, and the three fields are joined with single spaces. *)
Definition code_rule (query cat : string) (l : LocationRecord) : Prop :=
  (toLowerCase (trim query) = ""
   \/ Substring (toLowerCase (trim query))
                (toLowerCase
                   (name l ++ " " ++ category l ++ " " ++ description l)))
  /\ (cat = "" \/ category l = cat).

(** One character recognised by [p1], [p2] or [p3], as its bytes. *)
Inductive token (p1 : ascii -> bool) (p2 : ascii -> ascii -> bool)
          (p3 : ascii -> ascii -> ascii -> bool) : list ascii -> Prop :=
| token1 a : p1 a = true -> token p1 p2 p3 [a]
| token2 a b : p2 a b = true -> token p1 p2 p3 [a; b]
| token3 a b c : p3 a b c = true -> token p1 p2 p3 [a; b; c].

(** A sequence of such characters. *)
Inductive tokens (p1 : ascii -> bool) (p2 : ascii -> ascii -> bool)
          (p3 : ascii -> ascii -> ascii -> bool) : list ascii -> Prop :=
| tokens_nil : tokens p1 p2 p3 []
| tokens_cons t l :
    token p1 p2 p3 t -> tokens p1 p2 p3 l -> tokens p1 p2 p3 (t ++ l).

(** Every character of [s] is white space: [s] is a sequence of the
    characters that [trim] strips. *)
Definition blank (s : string) : Prop :=
  tokens space1 space2 space3 (chars s).

(** The bytes that open a white space character. *)
Definition space_lead (a : ascii) : bool :=
  (space1 a || (code a =? 194) || (code a =? 225) || (code a =? 226)
   || (code a =? 227) || (code a =? 239))%N.

(** The no-break space, U+00A0. *)
Definition nbsp : string := String "194" (String "160" "").

(** The host's conversion at the number 0, the only number the examples
    below print. *)
Definition print_zero (x : float) : list NumChar := [N0].

(** A record at latitude 0, longitude 0. *)
Definition record (n c d : string) (img : option string) : LocationRecord :=
  {| name := n; category := c; description := d;
     lat := 0; lng := 0; image := img |}.

(** The coordinates of a record. *)
Definition coords (l : LocationRecord) : LatLng :=
  {| ll_lat := lat l; ll_lng := lng l |}.

(** The events that change the filter. *)
Definition filter_change (ev : Event) : bool :=
  match ev with
  | SearchInput _ | CategoryChange _ => true
  | _ => false
  end.

(** The displayed subset: the output of the filter engine for the
    current text of the search field and the current category. *)
Definition displayed (st : State) : list MarkerEntry :=
  filterEngine (searchInput st) (categoryFilter st) (markers st).

(** The locate button at rest: enabled, with its first label. *)
Definition idle_button : Button :=
  {| disabled := false; textContent := idle_label |}.

(** The circle marker the success callback creates in state [st]. *)
Definition user_marker (latitude longitude : float) (st : State)
  : CircleMarker :=
  {| circle_id := nextId st;
     circle_latlng := {| ll_lat := latitude; ll_lng := longitude |};
     radius := 8; color := "#2b7cff"; fillColor := "#2b7cff";
     fillOpacity := 0.8 |}.

(** Object identities are handed out in increasing order: every circle
    marker on the map or awaited by a timer is older than [nextId]. *)
Definition fresh (st : State) : Prop :=
  Forall (fun c => circle_id c < nextId st) (overlays st)
  /\ Forall (fun tm => circle_id (target tm) < nextId st) (timers st).

(** The thumbnail tag of a list entry, up to the end of its [src]. *)
Definition thumb_tag (src : string) : string :=
  "<img class=" ++ q ++ "location-thumb" ++ q ++ " src=" ++ q ++ src ++ q.

(** The [img] tag of a popup, up to the end of its [src]. *)
Definition popup_img_tag (src : string) : string :=
  "<img src=" ++ q ++ src ++ q.

(** A payload for the image field: it closes the attribute and the tag,
    then opens a script element. *)
Definition payload : string := q ++ "><script>alert(1)</script>".

(** The fields the filter and the sidebar read and write. *)
Definition display_fields (st : State) :=
  (markers st, markerGroup st, locationList st,
   searchInput st, categoryFilter st).

(** The fields the timers and the circle markers live in. *)
Definition clock_fields (st : State) :=
  (overlays st, timers st, now st, nextId st).

(** The entry loading builds for the record at position [i]. *)
Definition entry_of (numberToString : float -> list NumChar) (i : nat)
           (l : LocationRecord) : MarkerEntry :=
  {| loc := l;
     marker := {| marker_id := i; marker_latlng := coords l;
                  marker_title := name l;
                  marker_popup := createPopupHTML numberToString l |} |}.

(** The entries loading builds for the records [ls], the first of them
    at position [i]. *)
Fixpoint entries_from (numberToString : float -> list NumChar) (i : nat)
         (ls : list LocationRecord) : list MarkerEntry :=
  match ls with
  | [] => []
  | l :: rest =>
      entry_of numberToString i l :: entries_from numberToString (S i) rest
  end.

(** The layer group and the sidebar both mirror the displayed subset. *)
Definition mirrored (st : State) : Prop :=
  markerGroup st = map marker (displayed st)
  /\ locationList st = map make_item (displayed st).

(** The circle marker [u], whose timer is due at [deadline], is followed
    through a run: it is on the map as long as the clock is before the
    deadline, with its timer pending, and no layer of its identity is on
    the map from the deadline on. *)
Definition tracking (u : CircleMarker) (deadline : Z) (st : State) : Prop :=
  circle_id u < nextId st
  /\ ((now st < deadline)%Z ->
      In u (overlays st)
      /\ In {| due := deadline; target := u |} (timers st)
      /\ Forall (fun tm => circle_id (target tm) = circle_id u ->
                          due tm = deadline) (timers st))
  /\ ((deadline <= now st)%Z ->
      Forall (fun c => circle_id c <> circle_id u) (overlays st)).

(** How often the character [c] occurs in [s]. *)
Fixpoint count (c : ascii) (s : string) : nat :=
  match s with
  | EmptyString => 0
  | String a r => (if Ascii.eqb a c then 1 else 0) + count c r
  end.

(** The characters that open or close a tag or an attribute value. *)
Definition markup (c : ascii) : bool :=
  Ascii.eqb c "<" || Ascii.eqb c ">" || Ascii.eqb c dq || Ascii.eqb c "'".

(** ** The category menu (script.js, lines 22, 42 and 64-70) *)

(** [categorySet.add(c)]: a set keeps its elements in the order of their
    first insertion. *)
Definition set_add (c : string) (s : list string) : list string :=
  if existsb (String.eqb c) s then s else s ++ [c].

(** The set built by [categorySet.add(loc.category)] over the records. *)
Definition categorySet (ls : list LocationRecord) : list string :=
  fold_left (fun s l => set_add (category l) s) ls [].

(** Insertion of [x] in an array already in order. *)
Fixpoint insert_sorted (x : string) (l : list string) : list string :=
  match l with
  | [] => [x]
  | y :: r => if precedes x y then x :: l else y :: insert_sorted x r
  end.

(** [arr.sort()] with the default comparison, the order [precedes] of the
    host.  The host may sort by any method; on an array without
    duplicates all methods give the array computed here (see
    [sort_unique]). *)
Fixpoint sort (l : list string) : list string :=
  match l with
  | [] => []
  | x :: r => insert_sorted x (sort r)
  end.

(** An [option] element of the menu. *)
Record OptionElement := { option_value : string; option_text : string }.

(** The options appended to [#categoryFilter], in order. *)
Definition categoryOptions (ls : list LocationRecord) : list OptionElement :=
  map (fun cat => {| option_value := cat; option_text := cat |})
      (sort (categorySet ls)).

(** ** What the further properties speak about *)

(** The characters [escapeHtml] replaces. *)
Definition special (c : ascii) : bool :=
  Ascii.eqb c "&" || Ascii.eqb c "<" || Ascii.eqb c ">" || Ascii.eqb c dq
  || Ascii.eqb c "'".

(** No character of [s] is replaced by [escapeHtml]. *)
Definition plain (s : string) : Prop :=
  Forall (fun c => special c = false) (chars s).

(** The image field of [l], when there is one, holds no markup
    character. *)
Definition safe_image (l : LocationRecord) : Prop :=
  forall url, image l = Some url ->
              Forall (fun c => markup c = false) (chars url).

(** Strictly increasing in the order of [sort]: each string precedes,
    and is not, every later one. *)
Definition increasing (l : list string) : Prop :=
  StronglySorted (fun a b => precedes a b = true /\ a <> b) l.

(** The locate button while a position is awaited or shown. *)
Definition locating_button : Button :=
  {| disabled := true; textContent := "Locating..." |}.

(** The message of the alert shown without location services. *)
Definition unsupported_message : string :=
  "Geolocation not supported by this browser.".

(** The three situations of the locate control: at rest; waiting for the
    position; showing the position, with one circle marker on the map and
    one timer that will remove it within 6000 milliseconds. *)
Inductive Phase (st : State) : Prop :=
| Idle :
    locateBtn st = idle_button -> pending st = 0 ->
    timers st = [] -> overlays st = [] -> Phase st
| Locating :
    locateBtn st = locating_button -> pending st = 1 ->
    timers st = [] -> overlays st = [] -> Phase st
| Showing (u : CircleMarker) (d : Z) :
    locateBtn st = locating_button -> pending st = 0 ->
    timers st = [{| due := d; target := u |}] -> overlays st = [u] ->
    (now st < d <= now st + 6000)%Z -> Phase st.

(** The fields the locate control reads and writes, with the clock. *)
Definition locate_fields (st : State) :=
  (locateBtn st, alerts st, overlays st, timers st, pending st,
   now st, nextId st, geolocation st).

(** What loading promises of the entry [e] it builds: the marker stands
    at the coordinates of the record, is titled with its name and is
    bound to its popup. *)
Definition built (numberToString : float -> list NumChar) (e : MarkerEntry)
  : Prop :=
  marker_latlng (marker e) = coords (loc e)
  /\ marker_title (marker e) = name (loc e)
  /\ marker_popup (marker e) = createPopupHTML numberToString (loc e).

(** The alert each event of a run brings up in a browser with location
    services: one per error callback, made of its message. *)
Fixpoint error_alerts (evs : list Event) : list string :=
  match evs with
  | [] => []
  | PositionError m :: rest =>
      String.append "Could not get location: " m :: error_alerts rest
  | _ :: rest => error_alerts rest
  end.

(** The number of clicks on the locate button in a run. *)
Fixpoint locate_clicks (evs : list Event) : nat :=
  match evs with
  | [] => 0
  | LocateClick :: rest => S (locate_clicks rest)
  | _ :: rest => locate_clicks rest
  end.

(** ** Strings: facts about the host functions *)

Lemma append_empty_r (s : string) : (s ++ "")%string = s.
Proof. induction s as [|c s IH]; simpl; [reflexivity | now rewrite IH]. Qed.

Lemma append_assoc (a b c : string) :
  ((a ++ b) ++ c = a ++ b ++ c)%string.
Proof. induction a as [|x a IH]; simpl; [reflexivity | now rewrite IH]. Qed.

Lemma chars_app (a b : string) :
  chars (a ++ b)%string = chars a ++ chars b.
Proof. induction a as [|x a IH]; simpl; [reflexivity | now rewrite IH]. Qed.

Lemma truthy_false (s : string) : truthy s = false <-> s = "".
Proof. destruct s; simpl; split; congruence. Qed.

Lemma startsWith_spec (s p : string) :
  startsWith s p = true <-> exists r, s = (p ++ r)%string.
Proof.
  revert s; induction p as [|a p IH]; intros s; simpl.
  - split; [intros _; now exists s | reflexivity].
  - destruct s as [|b s]; simpl.
    + split; [discriminate | intros [r H]; discriminate].
    + rewrite andb_true_iff, Ascii.eqb_eq, IH. split.
      * intros [-> [r ->]]. now exists r.
      * intros [r H]. injection H as -> ->. split; [reflexivity | now exists r].
Qed.

Lemma includes_spec (s needle : string) :
  includes s needle = true <-> Substring needle s.
Proof.
  unfold Substring. induction s as [|c s IH].
  - simpl. rewrite orb_false_r, startsWith_spec. split.
    + intros [r H]. now exists "", r.
    + intros [pre [post H]]. destruct pre; simpl in H.
      * now exists post.
      * discriminate.
  - cbn [includes]. rewrite orb_true_iff, startsWith_spec, IH. split.
    + intros [[r H] | [pre [post H]]].
      * now exists "", r.
      * exists (String c pre), post. simpl. now rewrite H.
    + intros [pre [post H]]. destruct pre as [|x pre]; simpl in H.
      * left. now exists post.
      * right. injection H as _ H. now exists pre, post.
Qed.

(** ** White space and [trim] *)

Lemma chars_of_chars (l : list ascii) : chars (of_chars l) = l.
Proof. induction l as [|c l IH]; simpl; [reflexivity | now rewrite IH]. Qed.

Lemma of_chars_chars (s : string) : of_chars (chars s) = s.
Proof. induction s as [|c s IH]; simpl; [reflexivity | now rewrite IH]. Qed.

Lemma of_chars_app (a b : list ascii) :
  of_chars (a ++ b) = (of_chars a ++ of_chars b)%string.
Proof. induction a as [|x a IH]; simpl; [reflexivity | now rewrite IH]. Qed.

(** Turning a boolean test on codes into arithmetic. *)
Ltac codes :=
  unfold space_lead, space1, space2, space3 in *;
  repeat match goal with
         | H : context [_ = true] |- _ =>
             progress (rewrite ?orb_true_iff, ?andb_true_iff, ?N.eqb_eq,
                               ?N.leb_le in H)
         end.

Ltac code_false :=
  apply not_true_is_false; intro; codes; lia.

Section Strip.

Variable p1 : ascii -> bool.
Variable p2 : ascii -> ascii -> bool.
Variable p3 : ascii -> ascii -> ascii -> bool.

Hypothesis p2_not_p1 : forall a b, p2 a b = true -> p1 a = false.
Hypothesis p3_not_p1 : forall a b c, p3 a b c = true -> p1 a = false.
Hypothesis p3_not_p2 : forall a b c, p3 a b c = true -> p2 a b = false.

Lemma strip_token (t l : list ascii) :
  token p1 p2 p3 t -> strip p1 p2 p3 (t ++ l) = strip p1 p2 p3 l.
Proof.
  intros [a H | a b H | a b c H]; simpl.
  - now rewrite H.
  - now rewrite (p2_not_p1 a b H), H.
  - now rewrite (p3_not_p1 a b c H), (p3_not_p2 a b c H), H.
Qed.

Lemma strip_tokens (w l : list ascii) :
  tokens p1 p2 p3 w -> strip p1 p2 p3 (w ++ l) = strip p1 p2 p3 l.
Proof.
  induction 1 as [|t w Ht Hw IH]; [reflexivity|].
  now rewrite <- app_assoc, (strip_token t _ Ht).
Qed.

Lemma tokens_app (a b : list ascii) :
  tokens p1 p2 p3 a -> tokens p1 p2 p3 b -> tokens p1 p2 p3 (a ++ b).
Proof.
  induction 1 as [|t w Ht Hw IH]; intros Hb; [exact Hb|].
  rewrite <- app_assoc. constructor; [exact Ht | now apply IH].
Qed.

(** [strip] either stops at once or drops one token p1 p2 p3 and goes on. *)
Lemma strip_cases (l : list ascii) :
  strip p1 p2 p3 l = l
  \/ exists t r, token p1 p2 p3 t /\ l = t ++ r
                 /\ strip p1 p2 p3 l = strip p1 p2 p3 r.
Proof.
  destruct l as [|a [|b [|c r]]]; simpl.
  - now left.
  - destruct (p1 a) eqn:E1; [right; exists [a], []|now left].
    split; [now constructor | split; [reflexivity|]]. reflexivity.
  - destruct (p1 a) eqn:E1;
      [right; exists [a], [b]; split; [now constructor | now split]|].
    destruct (p2 a b) eqn:E2; [right; exists [a; b], []|now left].
    split; [now constructor | now split].
  - destruct (p1 a) eqn:E1;
      [right; exists [a], (b :: c :: r); split;
       [now constructor | now split]|].
    destruct (p2 a b) eqn:E2;
      [right; exists [a; b], (c :: r); split;
       [now constructor | now split]|].
    destruct (p3 a b c) eqn:E3; [right; exists [a; b; c], r|now left].
    split; [now constructor | now split].
Qed.

Lemma token_length (t : list ascii) : token p1 p2 p3 t -> 0 < length t.
Proof. intros [a H | a b H | a b c H]; simpl; lia. Qed.

(** What [strip] drops is a sequence of tokens p1 p2 p3. *)
Lemma strip_split (l : list ascii) :
  exists w, tokens p1 p2 p3 w /\ l = w ++ strip p1 p2 p3 l.
Proof.
  remember (length l) as n eqn:Hn. revert l Hn.
  induction n as [n IH] using lt_wf_ind. intros l Hn.
  destruct (strip_cases l) as [E | [t [r [Ht [El Es]]]]].
  - exists []. split; [constructor | now rewrite E].
  - assert (Hlt : length r < n).
    { subst n l. rewrite length_app. pose proof (token_length t Ht). lia. }
    destruct (IH _ Hlt r eq_refl) as [w [Hw Er]].
    exists (t ++ w). split; [now constructor|].
    rewrite Es, <- app_assoc, <- Er. exact El.
Qed.

Lemma strip_idem_nil (w : list ascii) :
  tokens p1 p2 p3 w -> strip p1 p2 p3 w = [].
Proof.
  intros H. rewrite <- (app_nil_r w). now rewrite (strip_tokens w [] H).
Qed.

(** Bytes that open a token p1 p2 p3, and bytes that only follow in one. *)
Variable lead : ascii -> bool.
Hypothesis token_lead :
  forall t, token p1 p2 p3 t -> exists a r, t = a :: r /\ lead a = true.
Hypothesis p2_follow : forall a b, lead b = true -> p2 a b = false.
Hypothesis p3_follow2 : forall a b c, lead b = true -> p3 a b c = false.
Hypothesis p3_follow3 : forall a b c, lead c = true -> p3 a b c = false.

Lemma tokens_lead (w : list ascii) :
  tokens p1 p2 p3 w -> w = [] \/ exists a r, w = a :: r /\ lead a = true.
Proof.
  intros [|t l Ht Hl]; [now left | right].
  destruct (token_lead t Ht) as [a [r [-> Ha]]].
  now exists a, (r ++ l).
Qed.

(** Tokens after the text do not change what is dropped before it. *)
Lemma strip_app_tokens (l w : list ascii) :
  tokens p1 p2 p3 w ->
  strip p1 p2 p3 l <> [] ->
  strip p1 p2 p3 (l ++ w) = strip p1 p2 p3 l ++ w.
Proof.
  intros Hw. remember (length l) as n eqn:Hn. revert l Hn.
  induction n as [n IH] using lt_wf_ind. intros l Hn Hne.
  destruct (tokens_lead w Hw) as [-> | [x [w' [-> Hx]]]];
    [now rewrite !app_nil_r|].
  destruct l as [|a [|b [|c r]]]; simpl in *.
  - congruence.
  - destruct (p1 a) eqn:E1; [congruence|].
    rewrite (p2_follow a x Hx).
    destruct w' as [|y w'']; [reflexivity|].
    now rewrite (p3_follow2 a x y Hx).
  - destruct (p1 a) eqn:E1.
    + assert (Hlt : 1 < n) by (subst n; lia).
      exact (IH 1 Hlt [b] eq_refl Hne).
    + destruct (p2 a b) eqn:E2; [congruence|].
      now rewrite (p3_follow3 a b x Hx).
  - destruct (p1 a) eqn:E1.
    + assert (Hlt : length (b :: c :: r) < n) by (subst n; simpl; lia).
      exact (IH _ Hlt (b :: c :: r) eq_refl Hne).
    + destruct (p2 a b) eqn:E2.
      * assert (Hlt : length (c :: r) < n) by (subst n; simpl; lia).
        exact (IH _ Hlt (c :: r) eq_refl Hne).
      * destruct (p3 a b c) eqn:E3; [|reflexivity].
        assert (Hlt : length r < n) by (subst n; simpl; lia).
        exact (IH _ Hlt r eq_refl Hne).
Qed.

End Strip.

Section StripMap.

Variable p1 : ascii -> bool.
Variable p2 : ascii -> ascii -> bool.
Variable p3 : ascii -> ascii -> ascii -> bool.
Variable f : ascii -> ascii.
Hypothesis f1 : forall a, p1 (f a) = p1 a.
Hypothesis f2 : forall a b, p2 (f a) (f b) = p2 a b.
Hypothesis f3 : forall a b c, p3 (f a) (f b) (f c) = p3 a b c.

Lemma strip_map (l : list ascii) :
  strip p1 p2 p3 (map f l) = map f (strip p1 p2 p3 l).
Proof.
  remember (length l) as n eqn:Hn. revert l Hn.
  induction n as [n IH] using lt_wf_ind. intros l Hn.
  destruct l as [|a [|b [|c r]]]; simpl.
  - reflexivity.
  - rewrite f1. destruct (p1 a); reflexivity.
  - rewrite (f1 a). destruct (p1 a).
    + assert (Hlt : 1 < n) by (subst n; simpl; lia).
      exact (IH 1 Hlt [b] eq_refl).
    + rewrite (f2 a b). destruct (p2 a b); reflexivity.
  - rewrite (f1 a). destruct (p1 a).
    + assert (Hlt : length (b :: c :: r) < n) by (subst n; simpl; lia).
      exact (IH _ Hlt (b :: c :: r) eq_refl).
    + rewrite (f2 a b). destruct (p2 a b).
      * assert (Hlt : length (c :: r) < n) by (subst n; simpl; lia).
        exact (IH _ Hlt (c :: r) eq_refl).
      * rewrite (f3 a b c). destruct (p3 a b c); [|reflexivity].
        assert (Hlt : length r < n) by (subst n; simpl; lia).
        exact (IH _ Hlt r eq_refl).
Qed.

End StripMap.

(** The white space of [trim], forwards and backwards. *)

Lemma space2_not_space1 (a b : ascii) : space2 a b = true -> space1 a = false.
Proof. intros H. code_false. Qed.

Lemma space3_not_space1 (a b c : ascii) :
  space3 a b c = true -> space1 a = false.
Proof. intros H. code_false. Qed.

Lemma space3_not_space2 (a b c : ascii) :
  space3 a b c = true -> space2 a b = false.
Proof. intros H. code_false. Qed.

Lemma space2_rev_not_space1 (a b : ascii) :
  space2 b a = true -> space1 a = false.
Proof. intros H. code_false. Qed.

Lemma space3_rev_not_space1 (a b c : ascii) :
  space3 c b a = true -> space1 a = false.
Proof. intros H. code_false. Qed.

Lemma space3_rev_not_space2 (a b c : ascii) :
  space3 c b a = true -> space2 b a = false.
Proof. intros H. code_false. Qed.

Lemma space_token_lead (t : list ascii) :
  token space1 space2 space3 t ->
  exists a r, t = a :: r /\ space_lead a = true.
Proof.
  intros [a H | a b H | a b c H]; eexists; eexists;
    (split; [reflexivity|]); codes;
    rewrite ?orb_true_iff, ?andb_true_iff, ?N.eqb_eq, ?N.leb_le; lia.
Qed.

Lemma space2_follow (a b : ascii) : space_lead b = true -> space2 a b = false.
Proof. unfold space_lead. intros H. code_false. Qed.

Lemma space3_follow2 (a b c : ascii) :
  space_lead b = true -> space3 a b c = false.
Proof. unfold space_lead. intros H. code_false. Qed.

Lemma space3_follow3 (a b c : ascii) :
  space_lead c = true -> space3 a b c = false.
Proof. unfold space_lead. intros H. code_false. Qed.

Lemma tokens_rev (w : list ascii) :
  tokens space1 space2 space3 w ->
  tokens space1 (fun a b => space2 b a) (fun a b c => space3 c b a) (rev w).
Proof.
  induction 1 as [|t w Ht Hw IH]; [constructor|].
  rewrite rev_app_distr. apply tokens_app; [exact IH|].
  rewrite <- (app_nil_r (rev t)). constructor; [|constructor].
  destruct Ht as [a H | a b H | a b c H]; simpl; now constructor.
Qed.

Lemma blank_app (a b : string) :
  blank a -> blank b -> blank (a ++ b)%string.
Proof. unfold blank. rewrite chars_app. apply tokens_app. Qed.

Lemma trimStart_blank (w s : string) :
  blank w -> trimStart (w ++ s) = trimStart s.
Proof.
  unfold blank, trimStart. intros H. rewrite chars_app.
  now rewrite (strip_tokens _ _ _ space2_not_space1 space3_not_space1
                            space3_not_space2 _ _ H).
Qed.

Lemma trimEnd_app_blank (s w : string) :
  blank w -> trimEnd (s ++ w) = trimEnd s.
Proof.
  unfold blank, trimEnd. intros H. rewrite chars_app, rev_app_distr.
  now rewrite (strip_tokens _ _ _ space2_rev_not_space1
                            space3_rev_not_space1 space3_rev_not_space2
                            _ _ (tokens_rev _ H)).
Qed.

Lemma trimStart_of_blank (w : string) : blank w -> trimStart w = "".
Proof.
  intros H. rewrite <- (append_empty_r w), (trimStart_blank w "" H).
  reflexivity.
Qed.

Lemma trim_blank (w : string) : blank w -> trim w = "".
Proof. intros H. unfold trim. now rewrite (trimStart_of_blank w H). Qed.

(** Either [trimStart] leaves some text, and then white space after the
    string stays after that text, or the string is all white space. *)
Lemma trimStart_app (s w : string) :
  blank w ->
  trimStart (s ++ w) = (trimStart s ++ w)%string \/ blank s.
Proof.
  unfold blank, trimStart. intros H. rewrite chars_app.
  destruct (strip space1 space2 space3 (chars s)) as [|x r] eqn:E.
  - right.
    destruct (strip_split space1 space2 space3 (chars s)) as [t [Ht Es]].
    rewrite E, app_nil_r in Es. now rewrite Es.
  - left.
    rewrite (strip_app_tokens _ _ _ space_lead space_token_lead
               space2_follow space3_follow2 space3_follow3 _ _ H)
      by (rewrite E; discriminate).
    rewrite E, of_chars_app, of_chars_chars. reflexivity.
Qed.

Lemma trim_padded (w1 s w2 : string) :
  blank w1 -> blank w2 -> trim (w1 ++ s ++ w2) = trim s.
Proof.
  intros H1 H2. unfold trim. rewrite (trimStart_blank w1 _ H1).
  destruct (trimStart_app s w2 H2) as [E | Hs].
  - rewrite E. now apply trimEnd_app_blank.
  - rewrite (trimStart_of_blank s Hs),
            (trimStart_of_blank _ (blank_app s w2 Hs H2)).
    reflexivity.
Qed.

Lemma trim_Substring (s : string) : Substring (trim s) s.
Proof.
  unfold trim, trimEnd, trimStart. rewrite chars_of_chars.
  destruct (strip_split space1 space2 space3 (chars s)) as [w [_ E1]].
  destruct (strip_split space1 (fun a b => space2 b a)
                        (fun a b c => space3 c b a)
                        (rev (strip space1 space2 space3 (chars s))))
    as [w' [_ E2]].
  exists (of_chars w), (of_chars (rev w')).
  rewrite <- !of_chars_app, <- rev_app_distr, <- E2, rev_involutive, <- E1.
  now rewrite of_chars_chars.
Qed.

(** Lowering ASCII text leaves white space alone. *)

Lemma code_lower_char (a : ascii) :
  code (lower_char a)
  = (if (65 <=? code a) && (code a <=? 90) then code a + 32 else code a)%N.
Proof.
  unfold lower_char.
  destruct ((65 <=? code a) && (code a <=? 90))%N eqn:E; [|reflexivity].
  unfold code at 1. apply N_ascii_embedding.
  apply andb_true_iff in E. destruct E as [_ E]. apply N.leb_le in E. lia.
Qed.

Ltac lower_codes :=
  apply eq_true_iff_eq; unfold space1, space2, space3;
  rewrite !code_lower_char;
  repeat match goal with
         | |- context [if ?c then _ else _] =>
             let E := fresh "E" in
             destruct c eqn:E;
             [apply andb_true_iff in E; rewrite !N.leb_le in E
             |apply andb_false_iff in E; rewrite !N.leb_gt in E]
         end;
  rewrite ?orb_true_iff, ?andb_true_iff, ?N.eqb_eq, ?N.leb_le; lia.

Lemma space1_lower (a : ascii) : space1 (lower_char a) = space1 a.
Proof. lower_codes. Qed.

Lemma space2_lower (a b : ascii) :
  space2 (lower_char a) (lower_char b) = space2 a b.
Proof. lower_codes. Qed.

Lemma lower_char_cases (a : ascii) :
  lower_char a = a \/ (code a < 128 /\ code (lower_char a) < 128)%N.
Proof.
  rewrite code_lower_char. unfold lower_char.
  destruct ((65 <=? code a) && (code a <=? 90))%N eqn:E; [right | now left].
  apply andb_true_iff in E. rewrite !N.leb_le in E. lia.
Qed.

Lemma space3_high (a b c : ascii) :
  space3 a b c = true -> (128 <= code a /\ 128 <= code b /\ 128 <= code c)%N.
Proof. intros H. codes. lia. Qed.

Lemma space3_lower (a b c : ascii) :
  space3 (lower_char a) (lower_char b) (lower_char c) = space3 a b c.
Proof.
  destruct (lower_char_cases a) as [-> | Ha];
    destruct (lower_char_cases b) as [-> | Hb];
    destruct (lower_char_cases c) as [-> | Hc];
    try reflexivity;
    apply eq_true_iff_eq; split; intros H; apply space3_high in H; lia.
Qed.

Lemma toLowerCaseAscii_chars (s : string) :
  toLowerCaseAscii s = of_chars (map lower_char (chars s)).
Proof. induction s as [|c s IH]; simpl; [reflexivity | now rewrite IH]. Qed.

Lemma toLowerCaseAscii_trim (s : string) :
  toLowerCaseAscii (trim s) = trim (toLowerCaseAscii s).
Proof.
  unfold trim, trimEnd, trimStart.
  rewrite !toLowerCaseAscii_chars, !chars_of_chars.
  rewrite (strip_map _ _ _ lower_char space1_lower space2_lower
                     space3_lower).
  rewrite <- map_rev.
  rewrite (strip_map space1 (fun a b => space2 b a)
                     (fun a b c => space3 c b a) lower_char space1_lower
                     (fun a b => space2_lower b a)
                     (fun a b c => space3_lower c b a)).
  now rewrite map_rev.
Qed.

(** ** Lists: facts about [filter] and the loops *)

Lemma filter_Kept {A : Type} (P : A -> Prop) (f : A -> bool) (l : list A) :
  (forall x, f x = true <-> P x) -> Kept P l (filter f l).
Proof.
  intros Hf. induction l as [|x l IH]; simpl; [constructor|].
  destruct (f x) eqn:E.
  - apply Kept_take; [now apply Hf | exact IH].
  - apply Kept_drop; [|exact IH]. intros HP. apply Hf in HP. congruence.
Qed.

Lemma filter_Subseq {A : Type} (f : A -> bool) (l : list A) :
  Subseq (filter f l) l.
Proof.
  induction l as [|x l IH]; simpl; [constructor|].
  destruct (f x); now constructor.
Qed.

Lemma filter_all {A : Type} (f : A -> bool) (l : list A) :
  (forall x, f x = true) -> filter f l = l.
Proof.
  intros H. induction l as [|x l IH]; simpl; [reflexivity|].
  now rewrite H, IH.
Qed.

Lemma matches_code_rule (query cat : string) (e : MarkerEntry) :
  matches (toLowerCase (trim query)) cat e = true
  <-> code_rule query cat (loc e).
Proof.
  unfold matches, code_rule.
  rewrite andb_true_iff, !orb_true_iff, !negb_true_iff, !truthy_false.
  rewrite includes_spec, String.eqb_eq. reflexivity.
Qed.

(** ** The filter engine *)

Lemma filterEngine_In (query cat : string) (ms : list MarkerEntry)
      (e : MarkerEntry) :
  In e (filterEngine query cat ms)
  <-> In e ms /\ code_rule query cat (loc e).
Proof.
  unfold filterEngine. rewrite filter_In, matches_code_rule. reflexivity.
Qed.

(** C1 (as amended): for every record set, query and category, and
    whatever the host's [toLowerCase], the filter engine keeps exactly the
    records that pass the rule of the code, each at its place: (the query,
    trimmed and lowercased, is empty or occurs in the lowercased text
    name, space, category, space, description) and (the category selector
    is empty or equals the category of the record). *)
Theorem filterEngine_keeps_code_rule :
  forall (ms : list MarkerEntry) (query cat : string),
    Kept (fun e => code_rule query cat (loc e)) ms
         (filterEngine query cat ms).
Proof.
  intros ms query cat. unfold filterEngine.
  apply filter_Kept. intros e. apply matches_code_rule.
Qed.

(** C4: with an empty query and an empty category the filter engine
    returns the record sequence as it is, whatever the host's
    [toLowerCase] does to a text that is not empty. *)
Theorem filterEngine_empty_is_identity :
  forall ms : list MarkerEntry, filterEngine "" "" ms = ms.
Proof.
  intros ms. unfold filterEngine. change (trim "") with "".
  rewrite toLowerCase_empty. apply filter_all. intros e. reflexivity.
Qed.

(** C5: with a category that is not empty, every record the filter engine
    returns is a record of the input whose category is that very string,
    character for character. *)
Theorem filterEngine_category_exact :
  forall (ms : list MarkerEntry) (query cat : string) (e : MarkerEntry),
    cat <> "" ->
    In e (filterEngine query cat ms) ->
    In e ms /\ category (loc e) = cat.
Proof.
  intros ms query cat e Hne Hin.
  apply filterEngine_In in Hin. destruct Hin as [Hin [_ [Hc | Hc]]].
  - contradiction.
  - now split.
Qed.

(** C9: the query is trimmed before matching.  A query made of white
    space only (any of the characters [trim] strips: the ASCII ones, the
    no-break space, the byte order mark, the line and paragraph
    separators and the space separators of Unicode) filters like the
    empty query, so that it excludes no record whose category passes; and
    white space around a query changes nothing. *)
Theorem filterEngine_trims_query :
  forall (ms : list MarkerEntry) (cat w1 w2 query : string),
    blank w1 -> blank w2 ->
    filterEngine w1 cat ms = filterEngine "" cat ms
    /\ (forall e, In e ms -> cat = "" \/ category (loc e) = cat ->
                  In e (filterEngine w1 cat ms))
    /\ filterEngine (w1 ++ query ++ w2) cat ms = filterEngine query cat ms.
Proof.
  intros ms cat w1 w2 query H1 H2. split; [|split].
  - unfold filterEngine. rewrite (trim_blank w1 H1). reflexivity.
  - intros e Hin Hcat. apply filterEngine_In. split; [exact Hin|].
    split; [left | exact Hcat].
    rewrite (trim_blank w1 H1). exact toLowerCase_empty.
  - unfold filterEngine. now rewrite (trim_padded w1 query w2 H1 H2).
Qed.

(** ** The loops of the handlers, in closed form *)

Lemma fold_addLayer (l : list MarkerEntry) (st : State) :
  fold_left (fun s e => addLayer (marker e) s) l st
  = set_markerGroup (markerGroup st ++ map marker l) st.
Proof.
  revert st. induction l as [|e l IH]; intros st; simpl.
  - rewrite app_nil_r. destruct st; reflexivity.
  - rewrite IH. unfold addLayer, set_markerGroup; simpl.
    rewrite <- app_assoc. reflexivity.
Qed.

Lemma fold_appendChild (l : list MarkerEntry) (st : State) :
  fold_left (fun s e => appendChild (make_item e) s) l st
  = set_locationList (locationList st ++ map make_item l) st.
Proof.
  revert st. induction l as [|e l IH]; intros st; simpl.
  - rewrite app_nil_r. destruct st; reflexivity.
  - rewrite IH. unfold appendChild, set_locationList; simpl.
    rewrite <- app_assoc. reflexivity.
Qed.

Lemma renderList_eq (items : list MarkerEntry) (st : State) :
  renderList items st = set_locationList (map make_item items) st.
Proof. unfold renderList. rewrite fold_appendChild. reflexivity. Qed.

Lemma applyFilters_eq (st : State) :
  applyFilters st
  = let st3 := set_locationList (map make_item (displayed st))
                 (set_markerGroup (map marker (displayed st))
                                  (set_openPopup None st)) in
    if nonempty (displayed st)
    then fitBounds (Pad (getBounds (map marker (displayed st))) 0.12) st3
    else st3.
Proof.
  unfold applyFilters, displayed.
  rewrite renderList_eq, fold_addLayer. reflexivity.
Qed.

Lemma fold_add_marker (nts : float -> list NumChar)
      (ls : list LocationRecord) (st : State) :
  fold_left (add_marker nts) ls st
  = set_markers
      (markers st ++ entries_from nts (length (markers st)) ls)
      (set_markerGroup
         (markerGroup st
          ++ map marker (entries_from nts (length (markers st)) ls)) st).
Proof.
  revert st. induction ls as [|l ls IH]; intros st; simpl.
  - rewrite !app_nil_r. destruct st; reflexivity.
  - rewrite IH. unfold add_marker, addLayer, set_markers, set_markerGroup.
    simpl. rewrite length_app, Nat.add_1_r, <- !app_assoc. reflexivity.
Qed.

Lemma init_eq (nts : float -> list NumChar) (geo : bool)
      (ls : list LocationRecord) :
  init nts geo ls
  = let es := entries_from nts 0 ls in
    let st1 := set_markers es (set_markerGroup (map marker es) (start geo)) in
    set_locationList (map make_item es)
      (if nonempty es
       then fitBounds (Pad (getBounds (map marker es)) 0.12) st1
       else st1).
Proof.
  unfold init. rewrite fold_add_marker, renderList_eq. simpl.
  destruct (nonempty (entries_from nts 0 ls)); reflexivity.
Qed.

Lemma entries_from_loc (nts : float -> list NumChar) (i : nat)
      (ls : list LocationRecord) :
  map loc (entries_from nts i ls) = ls.
Proof.
  revert i. induction ls as [|l ls IH]; intros i; simpl;
    [reflexivity | now rewrite IH].
Qed.

Lemma entries_from_latlng (nts : float -> list NumChar) (i : nat)
      (ls : list LocationRecord) :
  Forall (fun e => marker_latlng (marker e) = coords (loc e))
         (entries_from nts i ls).
Proof.
  revert i. induction ls as [|l ls IH]; intros i; simpl; constructor;
    [reflexivity | apply IH].
Qed.

Lemma nonempty_false {A : Type} (l : list A) : nonempty l = false <-> l = [].
Proof. destruct l; simpl; split; congruence. Qed.

(** ** What each handler leaves alone *)

Lemma fold_timer_callback_display (l : list Timer) (st : State) :
  display_fields
    (fold_left (fun s tm => timer_callback (target tm) s) l st)
  = display_fields st.
Proof.
  revert st. induction l as [|tm l IH]; intros st; simpl;
    [reflexivity | now rewrite IH].
Qed.

Lemma dispatch_display (ev : Event) (st st' : State) :
  filter_change ev = false ->
  dispatch ev st = Some st' ->
  display_fields st' = display_fields st.
Proof.
  destruct ev; simpl; try discriminate; intros _ H.
  - destruct (nth_error (locationList st) i); inversion H; reflexivity.
  - destruct (disabled (locateBtn st)); inversion H.
    unfold locate_click. destruct (negb (geolocation st)); reflexivity.
  - destruct (pending st); inversion H; reflexivity.
  - destruct (pending st); inversion H; reflexivity.
  - destruct (0 <=? ms)%Z; inversion H.
    unfold elapse. now rewrite fold_timer_callback_display.
Qed.

Lemma dispatch_markers (ev : Event) (st st' : State) :
  dispatch ev st = Some st' -> markers st' = markers st.
Proof.
  destruct (filter_change ev) eqn:E; intros H.
  - destruct ev; try discriminate; simpl in H; inversion H;
      rewrite applyFilters_eq; simpl;
      match goal with |- context [nonempty ?l] => destruct (nonempty l) end;
      reflexivity.
  - apply (dispatch_display ev st st' E) in H.
    unfold display_fields in H. congruence.
Qed.

Lemma run_markers (evs : list Event) (st st' : State) :
  run evs st = Some st' -> markers st' = markers st.
Proof.
  revert st. induction evs as [|ev evs IH]; intros st; simpl.
  - intros H; now inversion H.
  - destruct (dispatch ev st) as [s|] eqn:E; [|discriminate].
    intros H. rewrite (IH _ H). now apply (dispatch_markers ev).
Qed.

Lemma applyFilters_mirrored (st : State) : mirrored (applyFilters st).
Proof.
  rewrite applyFilters_eq. unfold mirrored, displayed. simpl.
  destruct (nonempty _); simpl; split; reflexivity.
Qed.

Lemma init_mirrored (nts : float -> list NumChar) (geo : bool)
      (ls : list LocationRecord) :
  mirrored (init nts geo ls).
Proof.
  rewrite init_eq. unfold mirrored, displayed. simpl.
  destruct (nonempty _); simpl; unfold filterEngine;
    change (trim "") with ""; rewrite toLowerCase_empty;
    (rewrite filter_all; [split; reflexivity | intros e; reflexivity]).
Qed.

Lemma dispatch_mirrored (ev : Event) (st st' : State) :
  mirrored st -> dispatch ev st = Some st' -> mirrored st'.
Proof.
  intros M H. destruct (filter_change ev) eqn:E.
  - destruct ev; try discriminate; simpl in H; inversion H;
      apply applyFilters_mirrored.
  - apply (dispatch_display ev st st' E) in H.
    unfold display_fields in H. unfold mirrored, displayed in *.
    inversion H as [[H1 H2 H3 H4 H5]]. rewrite H1, H2, H3, H4, H5. exact M.
Qed.

Lemma run_mirrored (evs : list Event) (st st' : State) :
  mirrored st -> run evs st = Some st' -> mirrored st'.
Proof.
  revert st. induction evs as [|ev evs IH]; intros st M; simpl.
  - intros H; inversion H; now subst.
  - destruct (dispatch ev st) as [s|] eqn:E; [|discriminate].
    apply IH. now apply (dispatch_mirrored ev st).
Qed.

Lemma Subseq_map {A B : Type} (f : A -> B) (out l : list A) :
  Subseq out l -> Subseq (map f out) (map f l).
Proof. induction 1; simpl; now constructor. Qed.

Lemma run_init_markers (nts : float -> list NumChar) (geo : bool)
      (ls : list LocationRecord) (evs : list Event) (st : State) :
  run evs (init nts geo ls) = Some st ->
  markers st = entries_from nts 0 ls.
Proof.
  intros H. rewrite (run_markers _ _ _ H), init_eq. simpl.
  destruct (nonempty _); reflexivity.
Qed.

Lemma latlng_of_entries (nts : float -> list NumChar) (i : nat)
      (ls : list LocationRecord) (f : MarkerEntry -> bool) :
  map marker_latlng (map marker (filter f (entries_from nts i ls)))
  = map coords (map loc (filter f (entries_from nts i ls))).
Proof.
  pose proof (entries_from_latlng nts i ls) as H.
  induction H as [|e es He Hes IH]; simpl; [reflexivity|].
  destruct (f e); simpl; [rewrite He, IH|]; auto.
Qed.

Lemma filter_change_dispatch (ev : Event) (st st' : State) :
  filter_change ev = true ->
  dispatch ev st = Some st' ->
  exists s, st' = applyFilters s
            /\ markers s = markers st /\ view s = view st
            /\ searchInput s
               = match ev with SearchInput v => v | _ => searchInput st end
            /\ categoryFilter s
               = match ev with
                 | CategoryChange v => v
                 | _ => categoryFilter st
                 end.
Proof.
  destruct ev; try discriminate; intros _ H; simpl in H; inversion H;
    eexists; (split; [reflexivity|]); repeat split.
Qed.

Lemma applyFilters_inputs (st : State) :
  markers (applyFilters st) = markers st
  /\ searchInput (applyFilters st) = searchInput st
  /\ categoryFilter (applyFilters st) = categoryFilter st.
Proof.
  rewrite applyFilters_eq. simpl. destruct (nonempty _); repeat split.
Qed.

(** ** The displayed subset *)

(** C3: in a page loaded from the records [ls], after every filter
    change the layer group holds the markers, and the sidebar holds the
    entries, of one and the same list: the output of the filter engine
    for the query and the category now in the two fields.  That list is
    the source records with some left out, the others in their order, and
    the sidebar, the layer group and the output have the same length.
    Between filter changes nothing disturbs the two: every state reached
    from load mirrors its displayed subset. *)
Theorem filter_change_mirrors_filter :
  forall (nts : float -> list NumChar) (geo : bool)
         (ls : list LocationRecord) (evs : list Event) (st : State)
         (ev : Event) (st' : State),
    run evs (init nts geo ls) = Some st ->
    filter_change ev = true ->
    dispatch ev st = Some st' ->
    let query := match ev with SearchInput v => v | _ => searchInput st end in
    let cat :=
      match ev with CategoryChange v => v | _ => categoryFilter st end in
    let out := filterEngine query cat (markers st) in
    searchInput st' = query /\ categoryFilter st' = cat
    /\ markerGroup st' = map marker out
    /\ locationList st' = map make_item out
    /\ map onclick (locationList st') = markerGroup st'
    /\ Subseq (map loc out) ls
    /\ length (locationList st') = length (markerGroup st')
    /\ length (markerGroup st') = length out
    /\ mirrored st.
Proof.
  intros nts geo ls evs st ev st' Hrun Hev Hd query cat out.
  pose proof (run_mirrored evs _ st (init_mirrored nts geo ls) Hrun) as M.
  destruct (filter_change_dispatch ev st st' Hev Hd)
    as [s [-> [Hm [_ [Hq Hc]]]]].
  destruct (applyFilters_inputs s) as [Hm' [Hq' Hc']].
  destruct (applyFilters_mirrored s) as [HG HL].
  assert (E : displayed (applyFilters s) = out).
  { unfold displayed, out, query, cat.
    rewrite Hm', Hq', Hc', Hm, Hq, Hc. reflexivity. }
  rewrite E in HG, HL.
  assert (Hsub : Subseq (map loc out) ls).
  { rewrite <- (entries_from_loc nts 0 ls),
            <- (run_init_markers nts geo ls evs st Hrun).
    apply Subseq_map, filter_Subseq. }
  rewrite HG, HL, Hq', Hc', Hq, Hc.
  repeat split; try assumption; try apply M.
  - rewrite map_map. reflexivity.
  - now rewrite !length_map.
  - now rewrite length_map.
Qed.

(** C6: the view is fitted only to a subset that is not empty.  At load
    and after every filter change, when the displayed subset has a record
    the map is asked to fit the bounds spanned by the coordinates of its
    records, padded by 0.12; when it has none the view stays what it
    was. *)
Theorem fit_only_when_nonempty :
  forall (nts : float -> list NumChar) (geo : bool)
         (ls : list LocationRecord) (evs : list Event) (st : State)
         (ev : Event) (st' : State),
    run evs (init nts geo ls) = Some st ->
    filter_change ev = true ->
    dispatch ev st = Some st' ->
    let shown := map loc (displayed st') in
    view (init nts geo ls)
    = (if nonempty ls
       then FitBounds (Pad (Spanning (map coords ls)) 0.12)
       else view (start geo))
    /\ view st'
       = (if nonempty shown
          then FitBounds (Pad (Spanning (map coords shown)) 0.12)
          else view st).
Proof.
  intros nts geo ls evs st ev st' Hrun Hev Hd shown. split.
  - rewrite init_eq. simpl.
    pose proof (latlng_of_entries nts 0 ls (fun _ => true)) as H.
    rewrite (filter_all _ _ (fun _ => eq_refl)), entries_from_loc in H.
    unfold getBounds. rewrite H.
    destruct ls; reflexivity.
  - destruct (filter_change_dispatch ev st st' Hev Hd)
      as [s [-> [Hm [Hv _]]]].
    destruct (applyFilters_inputs s) as [Hm' [Hq' Hc']].
    assert (E : displayed (applyFilters s) = displayed s).
    { unfold displayed. now rewrite Hm', Hq', Hc'. }
    unfold shown. rewrite E, applyFilters_eq. simpl.
    assert (Hll : map marker_latlng (map marker (displayed s))
                  = map coords (map loc (displayed s))).
    { unfold displayed, filterEngine.
      rewrite Hm, (run_init_markers nts geo ls evs st Hrun).
      apply latlng_of_entries. }
    unfold getBounds. rewrite Hll, <- Hv.
    destruct (displayed s); reflexivity.
Qed.

(** ** Timers and circle markers *)

Lemma fold_timer_callback_clock (l : list Timer) (st : State) :
  let st' := fold_left (fun s tm => timer_callback (target tm) s) l st in
  timers st' = timers st /\ now st' = now st /\ nextId st' = nextId st.
Proof.
  revert st. induction l as [|tm l IH]; intros st; simpl.
  - repeat split.
  - destruct (IH (timer_callback (target tm) st)) as [H1 [H2 H3]].
    rewrite H1, H2, H3. repeat split.
Qed.

Lemma fold_timer_callback_overlays (l : list Timer) (st : State)
      (c : CircleMarker) :
  In c (overlays (fold_left (fun s tm => timer_callback (target tm) s) l st))
  <-> In c (overlays st)
      /\ Forall (fun tm => circle_id (target tm) <> circle_id c) l.
Proof.
  revert st. induction l as [|tm l IH]; intros st; simpl.
  - split; [intros H; split; [exact H | constructor] | now intros [H _]].
  - rewrite IH. unfold timer_callback, removeLayer. simpl.
    rewrite filter_In, negb_true_iff, Nat.eqb_neq. split.
    + intros [[Hin Hne] Hall]. split; [exact Hin|].
      constructor; [congruence | exact Hall].
    + intros [Hin Hall]. inversion Hall as [|? ? Hne Hl]; subst.
      split; [split; [exact Hin | congruence] | exact Hl].
Qed.

Lemma fold_timer_callback_button (l : list Timer) (st : State) :
  l <> [] ->
  locateBtn (fold_left (fun s tm => timer_callback (target tm) s) l st)
  = idle_button.
Proof.
  revert st. induction l as [|tm l IH]; intros st Hne; [congruence|].
  simpl. destruct l as [|tm' l].
  - reflexivity.
  - apply IH. discriminate.
Qed.

Lemma dispatch_clock (ev : Event) (st st' : State) :
  dispatch ev st = Some st' ->
  match ev with
  | PositionSuccess la lo =>
      let u := user_marker la lo st in
      overlays st' = overlays st ++ [u]
      /\ timers st' = timers st ++ [{| due := now st + 6000; target := u |}]
      /\ now st' = now st /\ nextId st' = S (nextId st)
  | Elapse ms =>
      (0 <= ms)%Z /\ st' = elapse ms st
  | _ => clock_fields st' = clock_fields st
  end.
Proof.
  destruct ev; simpl; intros H.
  - inversion H. rewrite applyFilters_eq. simpl.
    destruct (nonempty _); reflexivity.
  - inversion H. rewrite applyFilters_eq. simpl.
    destruct (nonempty _); reflexivity.
  - destruct (nth_error (locationList st) i); inversion H; reflexivity.
  - destruct (disabled (locateBtn st)); inversion H.
    unfold locate_click. destruct (negb (geolocation st)); reflexivity.
  - destruct (pending st); inversion H. repeat split.
  - destruct (pending st); inversion H; reflexivity.
  - destruct (0 <=? ms)%Z eqn:E; inversion H.
    split; [now apply Z.leb_le | reflexivity].
Qed.

Lemma elapse_clock (ms : Z) (st : State) :
  now (elapse ms st) = (now st + ms)%Z
  /\ nextId (elapse ms st) = nextId st
  /\ timers (elapse ms st)
     = filter (fun tm => negb (due tm <=? now st + ms)%Z) (timers st).
Proof.
  unfold elapse.
  destruct (fold_timer_callback_clock
              (filter (fun tm => (due tm <=? now st + ms)%Z) (timers st))
              (set_timers
                 (filter (fun tm => negb (due tm <=? now st + ms)%Z)
                         (timers st))
                 (set_now (now st + ms)%Z st))) as [H1 [H2 H3]].
  cbv zeta in H1, H2, H3. rewrite H1, H2, H3. repeat split.
Qed.

Lemma elapse_overlays (ms : Z) (st : State) (c : CircleMarker) :
  In c (overlays (elapse ms st))
  <-> In c (overlays st)
      /\ forall tm, In tm (timers st) -> (due tm <= now st + ms)%Z ->
                    circle_id (target tm) <> circle_id c.
Proof.
  unfold elapse. rewrite fold_timer_callback_overlays. simpl.
  rewrite Forall_forall. split; intros [Hin H]; (split; [exact Hin|]).
  - intros tm Htm Hdue. apply H. apply filter_In.
    split; [exact Htm | now apply Z.leb_le].
  - intros tm Htm. apply filter_In in Htm. destruct Htm as [Htm Hdue].
    apply H; [exact Htm | now apply Z.leb_le].
Qed.

Lemma dispatch_now (ev : Event) (st st' : State) :
  dispatch ev st = Some st' -> (now st <= now st')%Z.
Proof.
  intros H. pose proof (dispatch_clock ev st st' H) as C.
  destruct ev; cbv zeta in C;
    try (unfold clock_fields in C; inversion C as [[H1 H2 H3 H4]];
         rewrite H3; apply Z.le_refl).
  - destruct C as [_ [_ [-> _]]]. apply Z.le_refl.
  - destruct C as [Hms ->].
    destruct (elapse_clock ms st) as [-> _]. lia.
Qed.

Lemma run_now (evs : list Event) (st st' : State) :
  run evs st = Some st' -> (now st <= now st')%Z.
Proof.
  revert st. induction evs as [|ev evs IH]; intros st; simpl.
  - intros H; inversion H. apply Z.le_refl.
  - destruct (dispatch ev st) as [s|] eqn:E; [|discriminate].
    intros H. apply IH in H. apply dispatch_now in E. lia.
Qed.

Lemma tracking_elapse (u : CircleMarker) (D ms : Z) (st : State) :
  (0 <= ms)%Z -> tracking u D st -> tracking u D (elapse ms st).
Proof.
  intros Hms [Hid [Hbefore Hafter]].
  destruct (elapse_clock ms st) as [Hnow [Hnext Htim]].
  unfold tracking. rewrite Hnow, Hnext, Htim.
  split; [exact Hid|]. split.
  - intros Hlt. destruct Hbefore as [Hu [Ht Hall]]; [lia|].
    rewrite Forall_forall in Hall. split; [|split].
    + apply elapse_overlays. split; [exact Hu|].
      intros tm Htm Hdue Heq. specialize (Hall tm Htm Heq). lia.
    + apply filter_In. split; [exact Ht|]. simpl.
      apply negb_true_iff, Z.leb_gt. lia.
    + apply Forall_forall. intros tm Htm. apply filter_In in Htm.
      apply Hall, Htm.
  - intros Hge. apply Forall_forall. intros c Hc.
    apply elapse_overlays in Hc. destruct Hc as [Hc Hfired].
    destruct (Z_lt_le_dec (now st) D) as [Hlt | Hle].
    + destruct (Hbefore Hlt) as [_ [Ht _]].
      specialize (Hfired _ Ht). simpl in Hfired.
      intros Heq. apply Hfired; [lia | now symmetry].
    + specialize (Hafter Hle). rewrite Forall_forall in Hafter.
      now apply Hafter.
Qed.

Lemma tracking_dispatch (u : CircleMarker) (D : Z) (ev : Event)
      (st st' : State) :
  tracking u D st -> dispatch ev st = Some st' -> tracking u D st'.
Proof.
  intros T H. pose proof (dispatch_clock ev st st' H) as C.
  assert (Frame : clock_fields st' = clock_fields st -> tracking u D st').
  { unfold clock_fields. intros E. inversion E as [[H1 H2 H3 H4]].
    unfold tracking. rewrite H1, H2, H3, H4. exact T. }
  destruct ev; cbv zeta in C; try (apply Frame; exact C).
  - destruct C as [Ho [Ht [Hn Hi]]].
    destruct T as [Hid [Hbefore Hafter]].
    unfold tracking. rewrite Ho, Ht, Hn, Hi.
    split; [lia|]. split.
    + intros Hlt. destruct (Hbefore Hlt) as [Hu [Htm Hall]].
      split; [apply in_or_app; now left|].
      split; [apply in_or_app; now left|].
      apply Forall_app. split; [exact Hall|].
      constructor; [|constructor]. simpl. lia.
    + intros Hge. apply Forall_app. split; [now apply Hafter|].
      constructor; [|constructor]. simpl. lia.
  - destruct C as [Hms ->]. now apply tracking_elapse.
Qed.

Lemma tracking_run (u : CircleMarker) (D : Z) (evs : list Event)
      (st st' : State) :
  tracking u D st -> run evs st = Some st' -> tracking u D st'.
Proof.
  revert st. induction evs as [|ev evs IH]; intros st T; simpl.
  - intros H; inversion H; now subst.
  - destruct (dispatch ev st) as [s|] eqn:E; [|discriminate].
    apply IH. now apply (tracking_dispatch u D ev st).
Qed.

Lemma tracking_start (la lo : float) (st st1 : State) :
  fresh st ->
  dispatch (PositionSuccess la lo) st = Some st1 ->
  tracking (user_marker la lo st) (now st + 6000) st1.
Proof.
  intros [_ Ftim] H. apply dispatch_clock in H. cbv zeta in H.
  destruct H as [Ho [Ht [Hn Hi]]].
  unfold tracking. rewrite Ho, Ht, Hn, Hi. simpl.
  split; [lia|]. split.
  - intros _. split; [apply in_or_app; right; now left|].
    split; [apply in_or_app; right; now left|].
    apply Forall_app. split.
    + eapply Forall_impl; [|exact Ftim]. simpl. intros tm Hlt Heq. lia.
    + constructor; [|constructor]. reflexivity.
  - intros Hge. lia.
Qed.

Lemma fresh_dispatch (ev : Event) (st st' : State) :
  fresh st -> dispatch ev st = Some st' -> fresh st'.
Proof.
  intros [Fo Ft] H. pose proof (dispatch_clock ev st st' H) as C.
  assert (Frame : clock_fields st' = clock_fields st -> fresh st').
  { unfold clock_fields. intros E. inversion E as [[H1 H2 H3 H4]].
    unfold fresh. rewrite H1, H2, H4. now split. }
  destruct ev; cbv zeta in C; try (apply Frame; exact C).
  - destruct C as [Ho [Htm [Hn Hi]]]. unfold fresh. rewrite Ho, Htm, Hi.
    split; apply Forall_app; split;
      try (constructor; [simpl; lia | constructor]);
      (eapply Forall_impl; [|eassumption]); simpl; intros; lia.
  - destruct C as [Hms ->].
    destruct (elapse_clock ms st) as [_ [Hnext Htim]].
    unfold fresh. rewrite Hnext, Htim. split.
    + apply Forall_forall. intros c Hc. apply elapse_overlays in Hc.
      rewrite Forall_forall in Fo. apply Fo, Hc.
    + apply Forall_forall. intros tm Htm. apply filter_In in Htm.
      rewrite Forall_forall in Ft. apply Ft, Htm.
Qed.

Lemma fresh_run (evs : list Event) (st st' : State) :
  fresh st -> run evs st = Some st' -> fresh st'.
Proof.
  revert st. induction evs as [|ev evs IH]; intros st F; simpl.
  - intros H; inversion H; now subst.
  - destruct (dispatch ev st) as [s|] eqn:E; [|discriminate].
    apply IH. now apply (fresh_dispatch ev st).
Qed.

Lemma fresh_init (nts : float -> list NumChar) (geo : bool)
      (ls : list LocationRecord) :
  fresh (init nts geo ls).
Proof.
  rewrite init_eq. simpl. destruct (nonempty _); split; constructor.
Qed.

(** ** The locate button *)

(** C7: in a page reached from load by any run of events, when the
    success callback reports the position (la, lo), the map is asked to
    show (la, lo) at zoom 14 and a circle marker is put there; the button
    is left as it was.  Whatever happens next, the marker is on the map
    as long as fewer than 6000 milliseconds have passed; when the clock
    reaches that mark the marker is gone and the button is enabled with
    its first label; and the marker never comes back. *)
Theorem position_success_marker_lives_6s :
  forall (nts : float -> list NumChar) (geo : bool)
         (ls : list LocationRecord) (evs0 : list Event)
         (st st1 st2 : State) (la lo : float) (evs : list Event) (ms : Z),
    run evs0 (init nts geo ls) = Some st ->
    dispatch (PositionSuccess la lo) st = Some st1 ->
    run evs st1 = Some st2 ->
    (now st2 < now st + 6000)%Z ->
    (now st + 6000 <= now st2 + ms)%Z ->
    let u := user_marker la lo st in
    let st3 := elapse ms st2 in
    view st1 = SetView {| ll_lat := la; ll_lng := lo |} 14 true
    /\ locateBtn st1 = locateBtn st
    /\ circle_latlng u = {| ll_lat := la; ll_lng := lo |}
    /\ overlays st1 = overlays st ++ [u]
    /\ In u (overlays st2)
    /\ ~ In u (overlays st3)
    /\ locateBtn st3 = idle_button
    /\ (forall evs' st4, run evs' st3 = Some st4 -> ~ In u (overlays st4)).
Proof.
  intros nts geo ls evs0 st st1 st2 la lo evs ms Hrun0 Hd Hrun Hlt Hge u st3.
  pose proof (fresh_run evs0 _ st (fresh_init nts geo ls) Hrun0) as F.
  pose proof (tracking_start la lo st st1 F Hd) as T1.
  pose proof (tracking_run _ _ evs st1 st2 T1 Hrun) as T2.
  assert (Hms : (0 <= ms)%Z) by lia.
  pose proof (tracking_elapse _ _ ms st2 Hms T2) as T3.
  fold u in T1, T2, T3. fold st3 in T3.
  assert (Hnow3 : (now st + 6000 <= now st3)%Z).
  { unfold st3. destruct (elapse_clock ms st2) as [-> _]. exact Hge. }
  assert (Gone : forall s, tracking u (now st + 6000) s ->
                           (now st + 6000 <= now s)%Z ->
                           ~ In u (overlays s)).
  { intros s [_ [_ Hafter]] Hle Hin. specialize (Hafter Hle).
    rewrite Forall_forall in Hafter. now apply (Hafter u Hin). }
  split; [|split; [|split; [reflexivity|split; [|split; [|split; [|split]]]]]].
  - simpl in Hd. destruct (pending st); inversion Hd. reflexivity.
  - simpl in Hd. destruct (pending st); inversion Hd. reflexivity.
  - apply dispatch_clock in Hd. cbv zeta in Hd. apply Hd.
  - destruct T2 as [_ [Hbefore _]]. now apply Hbefore.
  - now apply Gone.
  - destruct T2 as [_ [Hbefore _]]. destruct (Hbefore Hlt) as [_ [Htm _]].
    unfold st3, elapse. apply fold_timer_callback_button.
    intros Hnil.
    assert (Hin : In {| due := now st + 6000; target := u |}
                     (filter (fun tm => (due tm <=? now st2 + ms)%Z)
                             (timers st2))).
    { apply filter_In. split; [exact Htm|]. simpl. now apply Z.leb_le. }
    rewrite Hnil in Hin. exact Hin.
  - intros evs' st4 Hrun'. apply Gone.
    + now apply (tracking_run _ _ evs' st3 st4).
    + apply run_now in Hrun'. lia.
Qed.

(** C8: when the error callback runs, the button is at once enabled with
    its first label, an alert is shown whose text contains the message of
    the error, and no circle marker is put on the map: the map layers,
    the view and the timers are what they were, and no object is
    created. *)
Theorem position_error_resets_button :
  forall (st st' : State) (message : string),
    dispatch (PositionError message) st = Some st' ->
    locateBtn st' = idle_button
    /\ (exists shown, alerts st' = alerts st ++ [shown]
                      /\ Substring message shown)
    /\ overlays st' = overlays st
    /\ timers st' = timers st
    /\ nextId st' = nextId st
    /\ view st' = view st.
Proof.
  intros st st' message H. simpl in H.
  destruct (pending st); inversion H. simpl.
  split; [reflexivity|]. split; [|repeat split].
  exists ("Could not get location: " ++ message)%string.
  split; [reflexivity|].
  exists "Could not get location: ", "". now rewrite append_empty_r.
Qed.

(** ** Markup *)

Lemma includes_skip (a : ascii) (n x s : string) :
  Forall (fun c => c <> a) (chars x) ->
  includes (x ++ s) (String a n) = includes s (String a n).
Proof.
  induction x as [|c x IH]; simpl; intros H; [reflexivity|].
  inversion H as [|? ? Hc Hx]; subst.
  destruct (Ascii.eqb a c) eqn:E.
  - apply Ascii.eqb_eq in E. congruence.
  - simpl. now apply IH.
Qed.

Lemma escapeHtml_chars (s : string) :
  Forall (fun c => c <> "<"%char /\ c <> ">"%char /\ c <> dq
                   /\ c <> "'"%char)
         (chars (escapeHtml s)).
Proof.
  induction s as [|c s IH]; simpl; [constructor|].
  rewrite chars_app. apply Forall_app. split; [|exact IH].
  unfold escape_char.
  repeat match goal with
         | |- context [Ascii.eqb c ?x] =>
             destruct (Ascii.eqb c x) eqn:?;
             [repeat constructor; intros ?; discriminate|]
         end.
  repeat constructor; intros ->;
    repeat match goal with
           | H : Ascii.eqb _ _ = false |- _ =>
               apply Ascii.eqb_neq in H; try congruence
           end.
Qed.

Lemma escapeHtml_no_lt (s : string) :
  Forall (fun c => c <> "<"%char) (chars (escapeHtml s)).
Proof.
  eapply Forall_impl; [|apply escapeHtml_chars]. simpl.
  intros c H. exact (proj1 H).
Qed.

Lemma num_text_no_lt (ds : list NumChar) :
  Forall (fun c => c <> "<"%char) (chars (num_text ds)).
Proof.
  induction ds as [|d ds IH]; simpl; constructor; [|exact IH].
  destruct d; discriminate.
Qed.

Lemma item_html_thumb (l : LocationRecord) :
  includes (item_html l) (thumb_tag (image_text l)) = true.
Proof.
  apply includes_spec. unfold Substring, item_html, thumb_tag.
  eexists "
        ", _.
  cbn [append q]. rewrite !append_assoc. reflexivity.
Qed.

(** Walk [includes] through a template: literal text is compared
    character by character, an escaped field or a number is skipped
    because it holds no opening angle bracket. *)
Ltac walk_template :=
  repeat (cbn [append includes startsWith Ascii.eqb Bool.eqb andb orb];
          try rewrite (includes_skip _ _ (escapeHtml _))
            by apply escapeHtml_no_lt;
          try rewrite (includes_skip _ _ (num_text _))
            by apply num_text_no_lt).

Lemma popup_img_iff (nts : float -> list NumChar) (l : LocationRecord) :
  includes (createPopupHTML nts l) "<img" = image_truthy l.
Proof.
  unfold createPopupHTML, image_truthy, image_text, q, dq.
  destruct (image l) as [[|c url]|]; cbn [truthy]; walk_template;
    reflexivity.
Qed.

Lemma popup_img_src (nts : float -> list NumChar) (l : LocationRecord)
      (url : string) :
  image l = Some url -> truthy url = true ->
  includes (createPopupHTML nts l) (popup_img_tag url) = true.
Proof.
  intros Hi Ht. apply includes_spec.
  unfold Substring, createPopupHTML, popup_img_tag, image_truthy, image_text.
  rewrite Hi, Ht.
  eexists ("
      <div class=" ++ q ++ "popup" ++ q ++ ">
        <h3>" ++ escapeHtml (name l) ++ "</h3>
        <small>" ++ escapeHtml (category l) ++ "</small>
        <p>" ++ escapeHtml (description l) ++ "</p>
        ")%string, _.
  cbn [append q]. rewrite !append_assoc. cbn [append].
  rewrite !append_assoc. cbn [append]. rewrite !append_assoc.
  reflexivity.
Qed.

(** C10: every entry of the sidebar list carries a thumbnail [img] whose
    [src] is the image field of its record, or the text undefined when
    the record has none; the popup of a record holds an [img] exactly
    when the image field is there and is not empty, and its [src] is then
    that field. *)
Theorem thumbnail_always_popup_image_optional :
  forall (nts : float -> list NumChar) (items : list MarkerEntry)
         (st : State) (l : LocationRecord),
    Forall2
      (fun e li =>
         includes (innerHTML li)
                  (thumb_tag match image (loc e) with
                             | Some url => url
                             | None => "undefined"
                             end) = true)
      items (locationList (renderList items st))
    /\ includes (createPopupHTML nts l) "<img"
       = match image l with
         | Some url => truthy url
         | None => false
         end
    /\ (forall url, image l = Some url -> truthy url = true ->
                    includes (createPopupHTML nts l) (popup_img_tag url)
                    = true).
Proof.
  intros nts items st l. split; [|split].
  - rewrite renderList_eq. simpl.
    induction items as [|e items IH]; simpl; constructor; [|exact IH].
    apply item_html_thumb.
  - apply popup_img_iff.
  - apply popup_img_src.
Qed.

(** C2, on the code: the image field reaches the markup as it is.  A
    record whose image field closes the attribute and opens a script
    element puts that element, unescaped, in its popup and in its list
    entry.  The name is escaped: the record named with a script element
    shows the entities and no script tag. *)
Theorem image_field_not_escaped :
  forall nts : float -> list NumChar,
    let bad := record "Pier" "Harbour" "boats" (Some payload) in
    let named := record "<script>x</script>" "Harbour" "boats" None in
    includes (createPopupHTML nts bad) "<script>alert(1)</script>" = true
    /\ includes (item_html bad) "<script>alert(1)</script>" = true
    /\ includes (createPopupHTML nts named) "<script" = false
    /\ includes (item_html named) "<script" = false
    /\ includes (createPopupHTML nts named) "&lt;script&gt;x&lt;/script&gt;"
       = true
    /\ includes (item_html named) "&lt;script&gt;x&lt;/script&gt;" = true.
Proof.
  intros nts bad named.
  split; [reflexivity|]. split; [reflexivity|].
  split; [|split; [reflexivity|split; reflexivity]].
  unfold createPopupHTML, image_truthy, image_text, q, dq.
  change (image named) with (@None string).
  walk_template. reflexivity.
Qed.

Lemma count_app (c : ascii) (a b : string) :
  count c (a ++ b) = count c a + count c b.
Proof.
  induction a as [|x a IH]; simpl; [reflexivity|].
  rewrite IH. apply Nat.add_assoc.
Qed.

Lemma count_absent (c : ascii) (s : string) :
  Forall (fun a => a <> c) (chars s) -> count c s = 0.
Proof.
  induction s as [|a s IH]; simpl; intros H; [reflexivity|].
  inversion H as [|? ? Ha Hs]; subst.
  apply Ascii.eqb_neq in Ha. rewrite Ha. now apply IH.
Qed.

Lemma markup_cases (c : ascii) :
  markup c = true ->
  c = "<"%char \/ c = ">"%char \/ c = dq \/ c = "'"%char.
Proof.
  unfold markup. rewrite !orb_true_iff, !Ascii.eqb_eq. tauto.
Qed.

Lemma count_escapeHtml (c : ascii) (s : string) :
  markup c = true -> count c (escapeHtml s) = 0.
Proof.
  intros H. apply count_absent.
  eapply Forall_impl; [|apply escapeHtml_chars]. simpl.
  intros a [H1 [H2 [H3 H4]]] ->.
  destruct (markup_cases _ H) as [E | [E | [E | E]]]; congruence.
Qed.

Lemma count_num_text (c : ascii) (ds : list NumChar) :
  markup c = true -> count c (num_text ds) = 0.
Proof.
  intros H. apply count_absent.
  induction ds as [|d ds IH]; simpl; constructor; [|exact IH].
  intros E. rewrite <- E in H. destruct d; discriminate H.
Qed.

(** The three escaped fields bring no markup character of their own:
    for a record without image, the angle brackets and the quotes of the
    popup and of the list entry are those of the template, as many as
    for the record whose fields are all empty. *)
Lemma escaped_fields_add_no_markup (nts : float -> list NumChar)
      (l : LocationRecord) (c : ascii) :
  markup c = true -> image l = None ->
  count c (createPopupHTML nts l)
  = count c (createPopupHTML nts (record "" "" "" None))
  /\ count c (item_html l) = count c (item_html (record "" "" "" None)).
Proof.
  intros Hc Hi.
  unfold createPopupHTML, item_html, image_truthy, image_text.
  rewrite Hi. cbn [image record name category description escapeHtml].
  rewrite !count_app, !(count_escapeHtml c _ Hc), !(count_num_text c _ Hc).
  split; reflexivity.
Qed.

(** ** Further properties: escaping *)

Lemma escapeHtml_app (a b : string) :
  escapeHtml (a ++ b) = (escapeHtml a ++ escapeHtml b)%string.
Proof.
  induction a as [|c a IH]; simpl; [reflexivity|].
  now rewrite IH, append_assoc.
Qed.

Lemma escape_char_plain (c : ascii) :
  special c = false -> escape_char c = String c "".
Proof.
  unfold special, escape_char. rewrite !orb_false_iff.
  intros [[[[-> ->] ->] ->] ->]. reflexivity.
Qed.

Lemma escape_char_special (c : ascii) :
  special c = true ->
  exists t, escape_char c = String "&" t
            /\ 3 < String.length (escape_char c).
Proof.
  unfold special, escape_char. intros H.
  destruct (Ascii.eqb c "&"); [eexists; split; [reflexivity|simpl; lia]|].
  destruct (Ascii.eqb c "<"); [eexists; split; [reflexivity|simpl; lia]|].
  destruct (Ascii.eqb c ">"); [eexists; split; [reflexivity|simpl; lia]|].
  destruct (Ascii.eqb c dq); [eexists; split; [reflexivity|simpl; lia]|].
  destruct (Ascii.eqb c "'"); [eexists; split; [reflexivity|simpl; lia]|].
  discriminate H.
Qed.

Lemma length_append (a b : string) :
  String.length (a ++ b) = String.length a + String.length b.
Proof. induction a as [|c a IH]; simpl; [reflexivity | now rewrite IH]. Qed.

Lemma escapeHtml_length (s : string) :
  String.length s <= String.length (escapeHtml s).
Proof.
  induction s as [|c s IH]; simpl; [lia|].
  rewrite length_append.
  destruct (special c) eqn:E.
  - destruct (escape_char_special c E) as [r [_ H]]. lia.
  - rewrite (escape_char_plain c E). simpl. lia.
Qed.

Lemma escapeHtml_plain (s : string) : plain s -> escapeHtml s = s.
Proof.
  unfold plain. induction s as [|c s IH]; simpl; intros H; [reflexivity|].
  inversion H as [|? ? Hc Hs]; subst.
  now rewrite (escape_char_plain c Hc), (IH Hs).
Qed.

Lemma escapeHtml_fixed_plain (s : string) : escapeHtml s = s -> plain s.
Proof.
  unfold plain. induction s as [|c s IH]; simpl; intros H; [constructor|].
  destruct (special c) eqn:E.
  - exfalso. destruct (escape_char_special c E) as [r [_ Hlen]].
    apply (f_equal String.length) in H. rewrite length_append in H.
    simpl in H. pose proof (escapeHtml_length s). lia.
  - rewrite (escape_char_plain c E) in H. simpl in H.
    injection H as H. constructor; [exact E | now apply IH].
Qed.

Lemma markup_special (c : ascii) : markup c = true -> special c = true.
Proof.
  unfold markup, special. rewrite !orb_true_iff. tauto.
Qed.

Lemma escapeHtml_keeps_special (s : string) :
  plain (escapeHtml s) -> plain s.
Proof.
  unfold plain. induction s as [|c s IH]; simpl; intros H; [constructor|].
  rewrite chars_app in H. apply Forall_app in H. destruct H as [Hc Hs].
  constructor; [|now apply IH].
  destruct (special c) eqn:E; [|reflexivity].
  destruct (escape_char_special c E) as [r [Heq _]].
  rewrite Heq in Hc. simpl in Hc. inversion Hc as [|? ? Hamp _].
  discriminate Hamp.
Qed.

(** X1: whatever the text, its escaped form holds none of the five
    characters the function replaces, except the ampersands that open the
    entities it writes: no angle bracket and no quote of either kind. *)
Theorem escapeHtml_output_has_no_markup :
  forall (s : string) (c : ascii),
    In c (chars (escapeHtml s)) ->
    c <> "<"%char /\ c <> ">"%char /\ c <> dq /\ c <> "'"%char.
Proof.
  intros s c Hin.
  pose proof (escapeHtml_chars s) as H. rewrite Forall_forall in H.
  now apply H.
Qed.

(** X2: escaping leaves a text unchanged exactly when the text holds none
    of the five characters; any other text gets longer. *)
Theorem escapeHtml_identity_iff_plain :
  forall s : string,
    (escapeHtml s = s <-> plain s)
    /\ (~ plain s -> String.length s < String.length (escapeHtml s)).
Proof.
  intros s. split.
  - split; [apply escapeHtml_fixed_plain | apply escapeHtml_plain].
  - intros Hn. pose proof (escapeHtml_length s) as Hle.
    destruct (Nat.eq_dec (String.length s) (String.length (escapeHtml s)))
      as [E|E]; [|lia].
    exfalso. apply Hn. clear Hn Hle. unfold plain.
    induction s as [|c s IH]; simpl in *; [constructor|].
    rewrite length_append in E. pose proof (escapeHtml_length s) as Hs.
    destruct (special c) eqn:Ec.
    + destruct (escape_char_special c Ec) as [r [_ Hlen]]. lia.
    + rewrite (escape_char_plain c Ec) in E. simpl in E.
      constructor; [exact Ec | apply IH; lia].
Qed.

(** X3: escaping twice is not escaping once: the two agree exactly on
    the texts that need no escaping at all. *)
Theorem escapeHtml_twice_iff_plain :
  forall s : string,
    escapeHtml (escapeHtml s) = escapeHtml s <-> plain s.
Proof.
  intros s. split.
  - intros H. apply escapeHtml_keeps_special.
    now apply escapeHtml_fixed_plain.
  - intros H. now rewrite !(escapeHtml_plain s H).
Qed.

Lemma escape_char_head (c : ascii) :
  exists t, escape_char c
            = String (if special c then "&"%char else c) t
            /\ (special c = false -> t = "").
Proof.
  destruct (special c) eqn:E.
  - destruct (escape_char_special c E) as [t [H _]].
    exists t. split; [exact H | discriminate].
  - exists "". split; [now apply escape_char_plain | reflexivity].
Qed.

Lemma special_cases (c : ascii) :
  special c = true ->
  c = "&"%char \/ c = "<"%char \/ c = ">"%char \/ c = dq \/ c = "'"%char.
Proof.
  unfold special. rewrite !orb_true_iff, !Ascii.eqb_eq. tauto.
Qed.

(** X4: escaping loses nothing: two texts with the same escaped form are
    the same text. *)
Theorem escapeHtml_injective :
  forall s1 s2 : string, escapeHtml s1 = escapeHtml s2 -> s1 = s2.
Proof.
  induction s1 as [|c1 s1 IH]; intros [|c2 s2] H.
  - reflexivity.
  - exfalso. simpl in H.
    destruct (escape_char_head c2) as [t [E _]]. rewrite E in H.
    discriminate H.
  - exfalso. simpl in H.
    destruct (escape_char_head c1) as [t [E _]]. rewrite E in H.
    discriminate H.
  - simpl in H.
    destruct (special c1) eqn:E1; destruct (special c2) eqn:E2.
    + destruct (special_cases c1 E1) as [-> | [-> | [-> | [-> | ->]]]];
        destruct (special_cases c2 E2) as [-> | [-> | [-> | [-> | ->]]]];
        simpl in H; try discriminate H;
        injection H as H; f_equal; now apply IH.
    + exfalso. rewrite (escape_char_plain c2 E2) in H.
      destruct (escape_char_special c1 E1) as [t [E _]]. rewrite E in H.
      simpl in H. injection H as Hc _. subst c2. discriminate E2.
    + exfalso. rewrite (escape_char_plain c1 E1) in H.
      destruct (escape_char_special c2 E2) as [t [E _]]. rewrite E in H.
      simpl in H. injection H as Hc _. subst c1. discriminate E1.
    + rewrite (escape_char_plain c1 E1), (escape_char_plain c2 E2) in H.
      simpl in H. injection H as -> H. f_equal. now apply IH.
Qed.

(** ** Further properties: the templates *)

Lemma count_safe_image (c : ascii) (l : LocationRecord) :
  markup c = true -> safe_image l -> count c (image_text l) = 0.
Proof.
  intros Hc Hs. unfold image_text. destruct (image l) as [url|] eqn:E.
  - apply count_absent. eapply Forall_impl; [|exact (Hs url E)].
    simpl. intros a Ha ->. congruence.
  - destruct (markup_cases c Hc) as [-> | [-> | [-> | ->]]]; reflexivity.
Qed.

(** X5: as long as the image field is absent or holds no angle bracket
    and no quote, the text of a record cannot add, close or break a tag:
    the list entries of any two such records have as many angle brackets
    and quotes of each kind, and so have their popups as soon as both
    have an image or both have none. *)
Theorem markup_skeleton_is_fixed :
  forall (nts : float -> list NumChar) (l1 l2 : LocationRecord) (c : ascii),
    markup c = true ->
    safe_image l1 -> safe_image l2 ->
    count c (item_html l1) = count c (item_html l2)
    /\ (image_truthy l1 = image_truthy l2 ->
        count c (createPopupHTML nts l1) = count c (createPopupHTML nts l2)).
Proof.
  intros nts l1 l2 c Hc H1 H2. split.
  - unfold item_html.
    now rewrite !count_app, !(count_escapeHtml c _ Hc),
                !(count_safe_image c l1 Hc H1), !(count_safe_image c l2 Hc H2).
  - intros Ht. unfold createPopupHTML. rewrite Ht.
    destruct (image_truthy l2);
      now rewrite !count_app, !(count_escapeHtml c _ Hc),
                  !(count_num_text c _ Hc),
                  ?(count_safe_image c l1 Hc H1),
                  ?(count_safe_image c l2 Hc H2).
Qed.

(** ** Further properties: loading and the two halves of the page *)

Lemma entries_from_ids (nts : float -> list NumChar) (i : nat)
      (ls : list LocationRecord) :
  map marker_id (map marker (entries_from nts i ls)) = seq i (length ls).
Proof.
  revert i. induction ls as [|l ls IH]; intros i; simpl;
    [reflexivity | now rewrite IH].
Qed.

Lemma entries_from_built (nts : float -> list NumChar) (i : nat)
      (ls : list LocationRecord) :
  Forall (built nts) (entries_from nts i ls).
Proof.
  revert i. induction ls as [|l ls IH]; intros i; simpl; constructor;
    [repeat split | apply IH].
Qed.

(** X6: loading builds one marker per record, in the order of the
    records and numbered from 0: each stands at the coordinates of its
    record, is titled with its name and bound to its popup.  All of them
    are in the layer group and each has its entry in the sidebar; the
    button is at rest and nothing else is on the map. *)
Theorem init_one_marker_per_record :
  forall (nts : float -> list NumChar) (geo : bool)
         (ls : list LocationRecord),
    let st := init nts geo ls in
    map loc (markers st) = ls
    /\ map marker_id (map marker (markers st)) = seq 0 (length ls)
    /\ Forall (built nts) (markers st)
    /\ markerGroup st = map marker (markers st)
    /\ locationList st = map make_item (markers st)
    /\ locateBtn st = idle_button
    /\ overlays st = [] /\ alerts st = [] /\ openPopup st = None.
Proof.
  intros nts geo ls st. unfold st. rewrite init_eq. simpl.
  destruct (nonempty (entries_from nts 0 ls)); simpl;
    (split; [apply entries_from_loc|]);
    (split; [apply entries_from_ids|]);
    (split; [apply entries_from_built|]); repeat split.
Qed.

Lemma filter_incl_map {A B : Type} (f : A -> bool) (g : A -> B)
      (l : list A) :
  Forall (fun y => In y (map g l)) (map g (filter f l)).
Proof.
  apply Forall_forall. intros y Hy. apply in_map_iff in Hy.
  destruct Hy as [x [<- Hx]]. apply filter_In in Hx.
  apply in_map. apply Hx.
Qed.

(** X7: no handler creates, changes or drops a marker.  In every state
    reached from load the [markers] array is the one loading built, its
    records are the loaded records, its markers have distinct
    identities, and the layer group and the click listeners of the
    sidebar hold markers of that array only. *)
Theorem markers_fixed_after_load :
  forall (nts : float -> list NumChar) (geo : bool)
         (ls : list LocationRecord) (evs : list Event) (st : State),
    run evs (init nts geo ls) = Some st ->
    markers st = markers (init nts geo ls)
    /\ map loc (markers st) = ls
    /\ NoDup (map marker_id (map marker (markers st)))
    /\ Forall (fun m => In m (map marker (markers st))) (markerGroup st)
    /\ Forall (fun li => In (onclick li) (map marker (markers st)))
              (locationList st).
Proof.
  intros nts geo ls evs st Hrun.
  pose proof (run_markers evs _ st Hrun) as Hm.
  pose proof (run_init_markers nts geo ls evs st Hrun) as He.
  destruct (run_mirrored evs _ st (init_mirrored nts geo ls) Hrun)
    as [HG HL].
  split; [exact Hm|]. rewrite He.
  split; [apply entries_from_loc|].
  split; [rewrite entries_from_ids; apply seq_NoDup|].
  rewrite HG, HL. unfold displayed, filterEngine. rewrite He. split.
  - apply filter_incl_map.
  - apply Forall_forall. intros li Hli. apply in_map_iff in Hli.
    destruct Hli as [e [<- Hin]]. simpl. apply filter_In in Hin.
    apply in_map. apply Hin.
Qed.

Lemma applyFilters_locate_fields (st : State) :
  locate_fields (applyFilters st) = locate_fields st.
Proof.
  rewrite applyFilters_eq. simpl. destruct (nonempty _); reflexivity.
Qed.

(** X8: the filter and the locate control do not touch each other's
    state.  A filter change leaves the button, the alerts, the circle
    markers, the timers and the requests as they were; every other event
    leaves the markers, the layer group, the sidebar and the two filter
    fields as they were. *)
Theorem filter_and_locate_are_independent :
  forall (ev : Event) (st st' : State),
    dispatch ev st = Some st' ->
    if filter_change ev
    then locate_fields st' = locate_fields st
    else display_fields st' = display_fields st.
Proof.
  intros ev st st' H. destruct (filter_change ev) eqn:E.
  - destruct ev; try discriminate E; simpl in H; inversion H;
      rewrite applyFilters_locate_fields; reflexivity.
  - now apply (dispatch_display ev st st').
Qed.


(** ** Further properties: the locate control as a state machine *)

Lemma Phase_same (st st' : State) :
  locate_fields st' = locate_fields st -> Phase st -> Phase st'.
Proof.
  unfold locate_fields. intros E P.
  inversion E as [[Hb Ha Ho Ht Hp Hn Hi Hg]].
  destruct P as [H1 H2 H3 H4 | H1 H2 H3 H4 | u d H1 H2 H3 H4 H5].
  - apply Idle; congruence.
  - apply Locating; congruence.
  - apply (Showing st' u d); congruence.
Qed.

Lemma elapse_no_timer (ms : Z) (st : State) :
  timers st = [] -> elapse ms st = set_timers [] (set_now (now st + ms) st).
Proof. unfold elapse. intros ->. reflexivity. Qed.

Lemma elapse_one_timer (ms d : Z) (u : CircleMarker) (st : State) :
  timers st = [{| due := d; target := u |}] ->
  elapse ms st
  = if (d <=? now st + ms)%Z
    then timer_callback u (set_timers [] (set_now (now st + ms) st))
    else set_timers [{| due := d; target := u |}]
                    (set_now (now st + ms) st).
Proof.
  unfold elapse. intros ->. simpl.
  destruct (d <=? now st + ms)%Z; reflexivity.
Qed.

Lemma Phase_elapse (ms : Z) (st : State) :
  (0 <= ms)%Z -> Phase st -> Phase (elapse ms st).
Proof.
  intros Hms [H1 H2 H3 H4 | H1 H2 H3 H4 | u d H1 H2 H3 H4 H5].
  - rewrite (elapse_no_timer ms st H3). now apply Idle.
  - rewrite (elapse_no_timer ms st H3). now apply Locating.
  - rewrite (elapse_one_timer ms d u st H3).
    destruct (d <=? now st + ms)%Z eqn:E.
    + apply Idle; simpl; try reflexivity; try assumption.
      rewrite H4. simpl. now rewrite Nat.eqb_refl.
    + apply Z.leb_gt in E.
      apply (Showing _ u d); simpl; try assumption; try reflexivity. lia.
Qed.

Lemma Phase_dispatch (ev : Event) (st st' : State) :
  Phase st -> dispatch ev st = Some st' -> Phase st'.
Proof.
  intros P H. destruct ev; simpl in H.
  - injection H as <-.
    apply (Phase_same (set_searchInput value st));
      [apply applyFilters_locate_fields|].
    now apply (Phase_same st).
  - injection H as <-.
    apply (Phase_same (set_categoryFilter value st));
      [apply applyFilters_locate_fields|].
    now apply (Phase_same st).
  - destruct (nth_error (locationList st) i); [|discriminate H].
    injection H as <-. now apply (Phase_same st).
  - destruct (disabled (locateBtn st)) eqn:D; [discriminate H|].
    injection H as <-.
    destruct P as [Hb Hp Ht Ho | Hb Hp Ht Ho | u d Hb Hp Ht Ho Hw];
      try (rewrite Hb in D; discriminate D).
    unfold locate_click. destruct (negb (geolocation st)).
    + now apply Idle.
    + apply Locating; simpl; try assumption; try reflexivity.
      now rewrite Hp.
  - destruct (pending st) as [|n] eqn:Hn; [discriminate H|].
    injection H as <-.
    destruct P as [Hb Hp Ht Ho | Hb Hp Ht Ho | u d Hb Hp Ht Ho Hw];
      try congruence.
    apply (Showing _ (user_marker latitude longitude st)
                   (now st + 6000)%Z); simpl; try assumption.
    + congruence.
    + now rewrite Ht.
    + now rewrite Ho.
    + lia.
  - destruct (pending st) as [|n] eqn:Hn; [discriminate H|].
    injection H as <-.
    destruct P as [Hb Hp Ht Ho | Hb Hp Ht Ho | u d Hb Hp Ht Ho Hw];
      try congruence.
    apply Idle; simpl; try assumption; try reflexivity. congruence.
  - destruct (0 <=? ms)%Z eqn:E; [|discriminate H].
    injection H as <-.
    apply Phase_elapse; [now apply Z.leb_le | exact P].
Qed.

Lemma Phase_init (nts : float -> list NumChar) (geo : bool)
      (ls : list LocationRecord) :
  Phase (init nts geo ls).
Proof.
  rewrite init_eq. simpl. destruct (nonempty _); now apply Idle.
Qed.

Lemma Phase_run (evs : list Event) (st st' : State) :
  Phase st -> run evs st = Some st' -> Phase st'.
Proof.
  revert st. induction evs as [|ev evs IH]; intros st P; simpl.
  - intros H; inversion H; now subst.
  - destruct (dispatch ev st) as [s|] eqn:E; [|discriminate].
    apply IH. now apply (Phase_dispatch ev st).
Qed.

(** X10: the locate control is a machine of three situations, and every
    state reached from load is in one of them.  At rest the button is
    enabled with its first label and no circle marker is on the map;
    while locating the button is disabled, one request is in flight and
    no circle marker is on the map; while showing the button is still
    disabled, exactly one circle marker is on the map and exactly one
    timer will remove it within 6000 milliseconds.  So there is never
    more than one request, one timer or one circle marker. *)
Theorem locate_control_phases :
  forall (nts : float -> list NumChar) (geo : bool)
         (ls : list LocationRecord) (evs : list Event) (st : State),
    run evs (init nts geo ls) = Some st ->
    Phase st
    /\ pending st + length (timers st) <= 1
    /\ length (overlays st) = length (timers st)
    /\ (disabled (locateBtn st) = false <->
        pending st = 0 /\ timers st = []).
Proof.
  intros nts geo ls evs st Hrun.
  pose proof (Phase_run evs _ st (Phase_init nts geo ls) Hrun) as P.
  split; [exact P|].
  destruct P as [H1 H2 H3 H4 | H1 H2 H3 H4 | u d H1 H2 H3 H4 H5];
    rewrite H1, H2, H3, H4; simpl; repeat split; try lia; try reflexivity;
    try discriminate; intros [? ?]; discriminate.
Qed.

(** X11: left alone for 6000 milliseconds, every state reached from load
    has no circle marker on the map and no timer pending.  The button is
    then at rest, unless a request for the position is still unanswered:
    time alone never brings the button back, it stays disabled until one
    of the two callbacks runs. *)
Theorem quiet_for_6s_clears_the_map :
  forall (nts : float -> list NumChar) (geo : bool)
         (ls : list LocationRecord) (evs : list Event) (st : State)
         (ms : Z),
    run evs (init nts geo ls) = Some st ->
    (6000 <= ms)%Z ->
    let st' := elapse ms st in
    overlays st' = [] /\ timers st' = []
    /\ pending st' = pending st
    /\ locateBtn st'
       = (if Nat.eqb (pending st) 0 then idle_button else locating_button).
Proof.
  intros nts geo ls evs st ms Hrun Hms st'. unfold st'.
  pose proof (Phase_run evs _ st (Phase_init nts geo ls) Hrun) as P.
  destruct P as [H1 H2 H3 H4 | H1 H2 H3 H4 | u d H1 H2 H3 H4 H5].
  - rewrite (elapse_no_timer ms st H3), H2. simpl. now rewrite H4, H1.
  - rewrite (elapse_no_timer ms st H3), H2. simpl. now rewrite H4, H1.
  - rewrite (elapse_one_timer ms d u st H3), H2.
    assert (E : (d <=? now st + ms)%Z = true) by (apply Z.leb_le; lia).
    rewrite E. simpl. rewrite H4. simpl. rewrite Nat.eqb_refl. simpl.
    repeat split. exact H2.
Qed.

(** ** Further properties: the alerts *)

Lemma fold_timer_callback_alerts (l : list Timer) (st : State) :
  geolocation (fold_left (fun s tm => timer_callback (target tm) s) l st)
  = geolocation st
  /\ alerts (fold_left (fun s tm => timer_callback (target tm) s) l st)
     = alerts st
  /\ pending (fold_left (fun s tm => timer_callback (target tm) s) l st)
     = pending st.
Proof.
  revert st. induction l as [|tm l IH]; intros st; simpl; [now repeat split|].
  destruct (IH (timer_callback (target tm) st)) as [-> [-> ->]].
  now repeat split.
Qed.

Lemma dispatch_alerts (ev : Event) (st st' : State) :
  dispatch ev st = Some st' ->
  geolocation st' = geolocation st
  /\ alerts st'
     = alerts st
       ++ match ev with
          | LocateClick =>
              if geolocation st then [] else [unsupported_message]
          | PositionError m => error_alerts [ev]
          | _ => []
          end.
Proof.
  intros H. destruct ev; simpl in H.
  - injection H as <-.
    pose proof (applyFilters_locate_fields (set_searchInput value st)) as E.
    unfold locate_fields in E. injection E as _ Ha _ _ _ _ _ Hg.
    rewrite Ha, Hg, app_nil_r. now split.
  - injection H as <-.
    pose proof (applyFilters_locate_fields (set_categoryFilter value st))
      as E.
    unfold locate_fields in E. injection E as _ Ha _ _ _ _ _ Hg.
    rewrite Ha, Hg, app_nil_r. now split.
  - destruct (nth_error (locationList st) i); [|discriminate H].
    injection H as <-. rewrite app_nil_r. split; reflexivity.
  - destruct (disabled (locateBtn st)); [discriminate H|].
    injection H as <-. unfold locate_click.
    destruct (geolocation st) eqn:G; simpl; rewrite ?app_nil_r;
      (split; [exact G | reflexivity]).
  - destruct (pending st); [discriminate H|]. injection H as <-.
    rewrite app_nil_r. split; reflexivity.
  - destruct (pending st); [discriminate H|]. injection H as <-.
    split; reflexivity.
  - destruct (0 <=? ms)%Z; [|discriminate H]. injection H as <-.
    unfold elapse.
    match goal with
    | |- context [fold_left ?f ?l ?s] =>
        destruct (fold_timer_callback_alerts l s) as [-> [-> _]]
    end.
    rewrite app_nil_r. split; reflexivity.
Qed.

(** X12: in a browser with location services the only alerts ever shown
    are those of the error callback: in every state reached from load
    the alerts are, in order, the texts made of the messages of the
    error callbacks that ran.  No filter change, list click, button
    click, success callback or timer shows an alert. *)
Theorem alerts_are_the_position_errors :
  forall (nts : float -> list NumChar) (ls : list LocationRecord)
         (evs : list Event) (st : State),
    run evs (init nts true ls) = Some st ->
    alerts st = error_alerts evs.
Proof.
  intros nts ls evs st Hrun.
  assert (G : forall evs s s',
             geolocation s = true -> run evs s = Some s' ->
             alerts s' = alerts s ++ error_alerts evs).
  { clear. induction evs as [|ev evs IH]; intros s s' Hg H; simpl in H.
    - injection H as <-. simpl. now rewrite app_nil_r.
    - destruct (dispatch ev s) as [s1|] eqn:E; [|discriminate H].
      destruct (dispatch_alerts ev s s1 E) as [Hg1 Ha1].
      rewrite Hg in Hg1, Ha1.
      rewrite (IH s1 s' Hg1 H), Ha1, <- app_assoc. f_equal.
      destruct ev; reflexivity. }
  assert (I0 : geolocation (init nts true ls) = true
               /\ alerts (init nts true ls) = []).
  { rewrite init_eq. simpl. destruct (nonempty _); now split. }
  destruct I0 as [Hg0 Ha0].
  rewrite (G evs _ st Hg0 Hrun), Ha0. reflexivity.
Qed.

(** X13: in a browser without location services the locate button does
    nothing but alert.  In every state reached from load the button is
    enabled with its first label, no request was made, no circle marker
    and no timer exist, and the alerts are the same message, once for
    each click on the button. *)
Theorem without_location_services_only_alerts :
  forall (nts : float -> list NumChar) (ls : list LocationRecord)
         (evs : list Event) (st : State),
    run evs (init nts false ls) = Some st ->
    locateBtn st = idle_button /\ pending st = 0
    /\ overlays st = [] /\ timers st = []
    /\ alerts st = repeat unsupported_message (locate_clicks evs).
Proof.
  intros nts ls evs st Hrun.
  assert (G : forall evs s s',
             geolocation s = false -> Phase s -> pending s = 0 ->
             timers s = [] ->
             run evs s = Some s' ->
             pending s' = 0 /\ timers s' = []
             /\ alerts s'
                = alerts s ++ repeat unsupported_message (locate_clicks evs)).
  { clear. induction evs as [|ev evs IH]; intros s s' Hg P Hp Ht H;
      simpl in H.
    - injection H as <-. simpl. rewrite app_nil_r. now repeat split.
    - destruct (dispatch ev s) as [s1|] eqn:E; [|discriminate H].
      destruct (dispatch_alerts ev s s1 E) as [Hg1 Ha1].
      rewrite Hg in Hg1, Ha1.
      pose proof (Phase_dispatch ev s s1 P E) as P1.
      assert (Hs1 : pending s1 = 0 /\ timers s1 = []).
      { destruct ev; simpl in E.
        - injection E as <-.
          pose proof (applyFilters_locate_fields (set_searchInput value s))
            as F.
          unfold locate_fields in F. injection F as _ _ _ F4 F5 _ _ _.
          rewrite F4, F5. simpl. split; assumption.
        - injection E as <-.
          pose proof (applyFilters_locate_fields
                        (set_categoryFilter value s)) as F.
          unfold locate_fields in F. injection F as _ _ _ F4 F5 _ _ _.
          rewrite F4, F5. simpl. split; assumption.
        - destruct (nth_error (locationList s) i); [|discriminate E].
          injection E as <-. simpl. split; assumption.
        - destruct (disabled (locateBtn s)); [discriminate E|].
          injection E as <-. unfold locate_click. rewrite Hg. simpl.
          split; assumption.
        - rewrite Hp in E. discriminate E.
        - rewrite Hp in E. discriminate E.
        - destruct (0 <=? ms)%Z; [|discriminate E]. injection E as <-.
          rewrite (elapse_no_timer ms s Ht). simpl.
          split; [assumption | reflexivity]. }
      destruct Hs1 as [Hp1 Ht1].
      destruct (IH s1 s' Hg1 P1 Hp1 Ht1 H) as [Hp' [Ht' Ha']].
      split; [exact Hp'|]. split; [exact Ht'|].
      rewrite Ha', Ha1, <- app_assoc. f_equal.
      destruct ev; try reflexivity.
      simpl in E. rewrite Hp in E. discriminate E. }
  pose proof (Phase_init nts false ls) as P0.
  assert (I0 : geolocation (init nts false ls) = false
               /\ pending (init nts false ls) = 0
               /\ timers (init nts false ls) = []
               /\ alerts (init nts false ls) = []).
  { rewrite init_eq. simpl. destruct (nonempty _); now repeat split. }
  destruct I0 as [Hg0 [Hp0 [Ht0 Ha0]]].
  destruct (G evs _ st Hg0 P0 Hp0 Ht0 Hrun) as [Hp [Ht Ha]].
  pose proof (Phase_run evs _ st P0 Hrun) as P.
  rewrite Ha0 in Ha. simpl in Ha.
  destruct P as [H1 H2 H3 H4 | H1 H2 H3 H4 | u d H1 H2 H3 H4 H5];
    try congruence.
  now repeat split.
Qed.

Lemma run_geolocation (evs : list Event) (st st' : State) :
  run evs st = Some st' -> geolocation st' = geolocation st.
Proof.
  revert st. induction evs as [|ev evs IH]; intros st H; simpl in H.
  - now injection H as <-.
  - destruct (dispatch ev st) as [s|] eqn:E; [|discriminate H].
    rewrite (IH s H). apply (dispatch_alerts ev st s E).
Qed.

(** X14: in a browser with location services, a click on the enabled
    button of a state reached from load starts exactly one request,
    disables the button and labels it Locating, shows no alert and
    leaves the map as it is; the button cannot be clicked again in that
    state. *)
Theorem locate_click_starts_one_request :
  forall (nts : float -> list NumChar) (ls : list LocationRecord)
         (evs : list Event) (st st' : State),
    run evs (init nts true ls) = Some st ->
    dispatch LocateClick st = Some st' ->
    locateBtn st = idle_button
    /\ locateBtn st' = locating_button
    /\ pending st' = 1
    /\ alerts st' = alerts st
    /\ overlays st' = [] /\ timers st' = []
    /\ view st' = view st
    /\ display_fields st' = display_fields st
    /\ dispatch LocateClick st' = None.
Proof.
  intros nts ls evs st st' Hrun Hd.
  pose proof (Phase_run evs _ st (Phase_init nts true ls) Hrun) as P.
  assert (Hg : geolocation st = true).
  { rewrite (run_geolocation evs _ st Hrun), init_eq. simpl.
    destruct (nonempty _); reflexivity. }
  simpl in Hd. destruct (disabled (locateBtn st)) eqn:D; [discriminate Hd|].
  injection Hd as <-. unfold locate_click. rewrite Hg. simpl.
  destruct P as [Hb Hp Ht Ho | Hb Hp Ht Ho | u d Hb Hp Ht Ho Hw];
    try (rewrite Hb in D; discriminate D).
  rewrite Hp. now repeat split.
Qed.

(** ** Further properties: searching *)

Lemma Substring_refl (s : string) : Substring s s.
Proof. exists "", "". simpl. now rewrite append_empty_r. Qed.

Lemma Substring_trans (a b c : string) :
  Substring a b -> Substring b c -> Substring a c.
Proof.
  intros [p1 [s1 ->]] [p2 [s2 ->]].
  exists (p2 ++ p1)%string, (s1 ++ s2)%string.
  now rewrite !append_assoc.
Qed.

Lemma Substring_app_l (a p s : string) :
  Substring a s -> Substring a (p ++ s).
Proof.
  intros [p1 [s1 ->]]. exists (p ++ p1)%string, s1.
  now rewrite !append_assoc.
Qed.

Lemma Substring_app_r (a s t : string) :
  Substring a s -> Substring a (s ++ t).
Proof.
  intros [p1 [s1 ->]]. exists p1, (s1 ++ t)%string.
  now rewrite !append_assoc.
Qed.

Lemma Substring_empty (a : string) : Substring a "" -> a = "".
Proof.
  intros [p [s H]]. destruct p; [|discriminate H].
  destruct a; [reflexivity | discriminate H].
Qed.

Section CaseMapping.

(** Two facts about the host's [toLowerCase].  White space has no case,
    and no letter looks past it for the form it takes: lowering commutes
    with [trim], and a text made of two parts joined by a space is
    lowered part by part. *)
Hypothesis toLowerCase_trim :
  forall s, toLowerCase (trim s) = trim (toLowerCase s).
Hypothesis toLowerCase_space :
  forall a b,
    toLowerCase (a ++ " " ++ b)
    = (toLowerCase a ++ " " ++ toLowerCase b)%string.

(** X15: the query is matched without regard to case: two queries with
    the same lowercase form, as the host computes it, select the same
    records. *)
Theorem filterEngine_query_case_insensitive :
  forall (ms : list MarkerEntry) (q1 q2 cat : string),
    toLowerCase q1 = toLowerCase q2 ->
    filterEngine q1 cat ms = filterEngine q2 cat ms.
Proof.
  intros ms q1 q2 cat H. unfold filterEngine.
  now rewrite !toLowerCase_trim, H.
Qed.

Lemma joined_fields (l : LocationRecord) :
  toLowerCase (name l ++ " " ++ category l ++ " " ++ description l)
  = (toLowerCase (name l) ++ " " ++ toLowerCase (category l) ++ " "
     ++ toLowerCase (description l))%string.
Proof. now rewrite !toLowerCase_space. Qed.

(** X16: a record is found by any text that, trimmed and lowercased by
    the host, occurs in the lowercase form of its name, of its category
    or of its description, provided the selected category is empty or
    its own.  In particular a record is found by its own name, category
    or description typed as it is.  It is also found by its name, a space
    and its category typed together, although that text occurs in no
    single field: the query may straddle two fields. *)
Theorem filterEngine_finds_by_field :
  forall (ms : list MarkerEntry) (e : MarkerEntry) (cat : string),
    In e ms ->
    cat = "" \/ category (loc e) = cat ->
    let fields :=
      [name (loc e); category (loc e); description (loc e)] in
    (forall query f,
        In f fields ->
        Substring (toLowerCase (trim query)) (toLowerCase f) ->
        In e (filterEngine query cat ms))
    /\ (forall f, In f fields -> In e (filterEngine f cat ms))
    /\ In e (filterEngine (name (loc e) ++ " " ++ category (loc e)) cat ms).
Proof.
  intros ms e cat Hin Hcat fields.
  assert (Own : forall f, Substring (toLowerCase (trim f)) (toLowerCase f)).
  { intros f. rewrite toLowerCase_trim. apply trim_Substring. }
  assert (Field : forall query f,
             In f fields ->
             Substring (toLowerCase (trim query)) (toLowerCase f) ->
             In e (filterEngine query cat ms)).
  { intros query f Hf H.
    apply filterEngine_In. split; [exact Hin|]. split; [|exact Hcat].
    right. rewrite joined_fields.
    destruct Hf as [<- | [<- | [<- | []]]].
    - now apply Substring_app_r.
    - now apply Substring_app_l, Substring_app_l, Substring_app_r.
    - now do 4 apply Substring_app_l. }
  split; [exact Field|]. split.
  - intros f Hf. apply (Field f f Hf), Own.
  - apply filterEngine_In. split; [exact Hin|]. split; [|exact Hcat].
    right. eapply Substring_trans; [apply Own|].
    rewrite joined_fields, toLowerCase_space. rewrite <- !append_assoc.
    apply Substring_app_r, Substring_app_r. rewrite !append_assoc.
    apply Substring_refl.
Qed.

End CaseMapping.

Lemma code_rule_narrow (q1 q2 cat : string) (l : LocationRecord) :
  Substring (toLowerCase (trim q1)) (toLowerCase (trim q2)) ->
  code_rule q2 cat l -> code_rule q1 cat l.
Proof.
  intros Hs [[He | Hq] Hc]; (split; [|exact Hc]).
  - left. rewrite He in Hs. now apply Substring_empty in Hs.
  - right. now apply (Substring_trans _ _ _ Hs).
Qed.

Lemma filter_filter_implied {A : Type} (f g : A -> bool) (l : list A) :
  (forall x, g x = true -> f x = true) ->
  filter g (filter f l) = filter g l.
Proof.
  intros H. induction l as [|x l IH]; simpl; [reflexivity|].
  destruct (f x) eqn:Ef; simpl.
  - now rewrite IH.
  - destruct (g x) eqn:Eg; [|exact IH].
    apply H in Eg. congruence.
Qed.

(** X17: typing on narrows the result.  When the first query, trimmed
    and lowercased by the host, occurs in the second one, trimmed and
    lowercased by the host, the records found by the second are among
    those found by the first, in the same order, and filtering the first
    result by the second query gives what the second query finds in the
    whole record set. *)
Theorem filterEngine_longer_query_narrows :
  forall (ms : list MarkerEntry) (q1 q2 cat : string),
    Substring (toLowerCase (trim q1)) (toLowerCase (trim q2)) ->
    filterEngine q2 cat (filterEngine q1 cat ms) = filterEngine q2 cat ms
    /\ Subseq (filterEngine q2 cat ms) (filterEngine q1 cat ms).
Proof.
  intros ms q1 q2 cat Hs.
  assert (E : filterEngine q2 cat (filterEngine q1 cat ms)
              = filterEngine q2 cat ms).
  { unfold filterEngine. apply filter_filter_implied. intros e He.
    apply matches_code_rule. apply matches_code_rule in He.
    now apply (code_rule_narrow q1 q2). }
  split; [exact E|]. rewrite <- E. unfold filterEngine at 1.
  apply filter_Subseq.
Qed.

Lemma matches_split (qy cat : string) (e : MarkerEntry) :
  matches qy cat e = matches qy "" e && matches "" cat e.
Proof.
  unfold matches. simpl. now rewrite andb_true_r.
Qed.

Lemma filter_filter_and {A : Type} (f g : A -> bool) (l : list A) :
  filter g (filter f l) = filter (fun x => f x && g x) l.
Proof.
  induction l as [|x l IH]; simpl; [reflexivity|].
  destruct (f x); simpl; [destruct (g x); now rewrite IH | exact IH].
Qed.

(** X18: the query and the category are two filters applied together:
    filtering by both is filtering by the query alone and then by the
    category alone, or the other way round. *)
Theorem filterEngine_query_and_category_compose :
  forall (ms : list MarkerEntry) (query cat : string),
    filterEngine query cat ms
    = filterEngine "" cat (filterEngine query "" ms)
    /\ filterEngine query cat ms
       = filterEngine query "" (filterEngine "" cat ms).
Proof.
  intros ms query cat. unfold filterEngine.
  rewrite !filter_filter_and. change (trim "") with "".
  rewrite toLowerCase_empty.
  split; apply filter_ext; intros e; rewrite (matches_split _ cat e);
    [reflexivity | apply andb_comm].
Qed.

(** X19: applying the filters twice is applying them once: a second run
    of [applyFilters] with the same two fields leaves every part of the
    state, the view included, as the first run left it. *)
Theorem applyFilters_idempotent :
  forall st : State, applyFilters (applyFilters st) = applyFilters st.
Proof.
  intros st.
  assert (D : displayed (applyFilters st) = displayed st).
  { destruct (applyFilters_inputs st) as [Hm [Hq Hc]].
    unfold displayed. now rewrite Hm, Hq, Hc. }
  rewrite (applyFilters_eq (applyFilters st)), D.
  rewrite (applyFilters_eq st). cbv zeta.
  destruct (nonempty (displayed st)); reflexivity.
Qed.

(** ** Further properties: the category menu *)

Lemma insert_sorted_In (x z : string) (l : list string) :
  In z (insert_sorted x l) <-> z = x \/ In z l.
Proof.
  induction l as [|y r IH]; simpl.
  - intuition.
  - destruct (precedes x y); simpl; [intuition|].
    rewrite IH. intuition.
Qed.

Lemma sort_In (z : string) (l : list string) : In z (sort l) <-> In z l.
Proof.
  induction l as [|x l IH]; simpl; [reflexivity|].
  rewrite insert_sorted_In, IH. intuition.
Qed.

Lemma set_add_spec (c : string) (s : list string) :
  NoDup s ->
  NoDup (set_add c s) /\ forall z, In z (set_add c s) <-> z = c \/ In z s.
Proof.
  intros Hn. unfold set_add.
  destruct (existsb (String.eqb c) s) eqn:E.
  - split; [exact Hn|]. intros z. split; [now right|].
    intros [-> | H]; [|exact H].
    apply existsb_exists in E. destruct E as [y [Hy Ey]].
    apply String.eqb_eq in Ey. now subst y.
  - assert (Hc : ~ In c s).
    { intros Hc. apply Bool.not_true_iff_false in E. apply E.
      apply existsb_exists. exists c. split; [exact Hc|].
      apply String.eqb_refl. }
    split.
    + apply NoDup_app; [exact Hn | repeat constructor; intros [] |].
      intros a Ha [<- | []]. exact (Hc Ha).
    + intros z. rewrite in_app_iff. simpl. split.
      * intros [H | [H | []]]; [now right | left; now symmetry].
      * intros [H | H]; [right; left; now symmetry | now left].
Qed.

Lemma categorySet_fold (ls : list LocationRecord) (s : list string) :
  NoDup s ->
  NoDup (fold_left (fun s l => set_add (category l) s) ls s)
  /\ forall z,
       In z (fold_left (fun s l => set_add (category l) s) ls s)
       <-> In z s \/ exists l, In l ls /\ category l = z.
Proof.
  revert s. induction ls as [|l ls IH]; intros s Hn; simpl.
  - split; [exact Hn|]. intros z. split; [now left|].
    intros [H | [l [[] _]]]. exact H.
  - destruct (set_add_spec (category l) s Hn) as [Hn1 Hm1].
    destruct (IH _ Hn1) as [Hn2 Hm2]. split; [exact Hn2|].
    intros z. rewrite Hm2, Hm1. split.
    + intros [[-> | H] | [l' [Hl' E]]].
      * right. exists l. split; [now left | reflexivity].
      * now left.
      * right. exists l'. split; [now right | exact E].
    + intros [H | [l' [[<- | Hl'] E]]].
      * left. now right.
      * left. left. now symmetry.
      * right. now exists l'.
Qed.

Lemma categoryOptions_values (ls : list LocationRecord) :
  map option_value (categoryOptions ls) = sort (categorySet ls).
Proof.
  unfold categoryOptions. rewrite map_map. simpl. apply map_id.
Qed.

Lemma categoryOptions_mem (ls : list LocationRecord) (c : string) :
  In c (map option_value (categoryOptions ls))
  <-> exists l, In l ls /\ category l = c.
Proof.
  rewrite categoryOptions_values, sort_In. unfold categorySet.
  destruct (categorySet_fold ls [] (NoDup_nil _)) as [_ Hm].
  rewrite Hm. simpl. split.
  - intros [[] | H]. exact H.
  - intros H. right. exact H.
Qed.

Section MenuOrder.

(** The order of the host is a total order of the strings. *)
Hypothesis precedes_total :
  forall a b, precedes a b = true \/ precedes b a = true.
Hypothesis precedes_antisym :
  forall a b, precedes a b = true -> precedes b a = true -> a = b.
Hypothesis precedes_trans :
  forall a b c, precedes a b = true -> precedes b c = true ->
                precedes a c = true.

Lemma not_precedes (a b : string) :
  precedes a b = false -> precedes b a = true /\ b <> a.
Proof.
  intros H. destruct (precedes_total a b) as [E | E]; [congruence|].
  split; [exact E|]. intros ->. congruence.
Qed.

Lemma before_trans (a b c : string) :
  precedes a b = true /\ a <> b -> precedes b c = true /\ b <> c ->
  precedes a c = true /\ a <> c.
Proof.
  intros [H1 N1] [H2 N2]. split; [now apply (precedes_trans a b c)|].
  intros ->. apply N1. now apply precedes_antisym.
Qed.

Lemma insert_sorted_increasing (x : string) (l : list string) :
  increasing l -> ~ In x l -> increasing (insert_sorted x l).
Proof.
  unfold increasing. induction l as [|y r IH]; simpl; intros Hs Hn.
  - repeat constructor.
  - inversion Hs as [|? ? Hr Hy]; subst.
    destruct (precedes x y) eqn:E.
    + assert (Hxy : precedes x y = true /\ x <> y).
      { split; [exact E|]. intros ->. apply Hn. now left. }
      constructor; [exact Hs|]. constructor; [exact Hxy|].
      eapply Forall_impl; [|exact Hy]. simpl. intros z Hz.
      now apply (before_trans x y z).
    + constructor; [apply IH; [exact Hr | intros H; apply Hn; now right]|].
      apply Forall_forall. intros z Hz. apply insert_sorted_In in Hz.
      destruct Hz as [-> | Hz]; [now apply not_precedes|].
      rewrite Forall_forall in Hy. now apply Hy.
Qed.

Lemma sort_increasing (l : list string) : NoDup l -> increasing (sort l).
Proof.
  induction l as [|x l IH]; simpl; intros H; [constructor|].
  inversion H as [|? ? Hx Hl]; subst.
  apply insert_sorted_increasing; [now apply IH|].
  now rewrite sort_In.
Qed.

Lemma increasing_ext (l1 l2 : list string) :
  increasing l1 -> increasing l2 ->
  (forall z, In z l1 <-> In z l2) -> l1 = l2.
Proof.
  unfold increasing. revert l2.
  induction l1 as [|a r1 IH]; intros [|b r2] H1 H2 Hm.
  - reflexivity.
  - exfalso. apply (proj2 (Hm b)). now left.
  - exfalso. apply (proj1 (Hm a)). now left.
  - inversion H1 as [|? ? Hr1 Ha]; subst.
    inversion H2 as [|? ? Hr2 Hb]; subst.
    rewrite Forall_forall in Ha, Hb.
    assert (Hab : a = b).
    { destruct (proj1 (Hm a) (or_introl eq_refl)) as [E | Har2];
        [now symmetry|].
      destruct (proj2 (Hm b) (or_introl eq_refl)) as [E | Hbr1];
        [exact E|].
      destruct (Ha b Hbr1) as [L1 _]. destruct (Hb a Har2) as [L2 _].
      now apply precedes_antisym. }
    subst b. f_equal. apply IH; [exact Hr1 | exact Hr2 |].
    intros z. split; intros Hz.
    + destruct (proj1 (Hm z) (or_intror Hz)) as [E | Hz2]; [|exact Hz2].
      subst z. destruct (Ha a Hz) as [_ C]. congruence.
    + destruct (proj2 (Hm z) (or_intror Hz)) as [E | Hz1]; [|exact Hz1].
      subst z. destruct (Hb a Hz) as [_ C]. congruence.
Qed.

(** Whatever the method, sorting an array without duplicates gives the
    array [sort] computes: the one list in strictly increasing order with
    the same elements. *)
Lemma sort_unique (l l' : list string) :
  NoDup l -> increasing l' -> (forall z, In z l' <-> In z l) ->
  l' = sort l.
Proof.
  intros Hn Hs Hm. apply increasing_ext; [exact Hs | |].
  - now apply sort_increasing.
  - intros z. now rewrite sort_In.
Qed.

(** X20: the category menu gets one option per category that occurs in
    the records and no other, each with the category as its value and as
    its text, in strictly increasing order of the host's comparison of
    strings, so without duplicates.  The menu is the only list with
    these properties: it depends on which categories occur, not on the
    order or the number of the records that carry them. *)
Theorem categoryOptions_sorted_distinct_complete :
  forall ls : list LocationRecord,
    let values := map option_value (categoryOptions ls) in
    increasing values
    /\ NoDup values
    /\ (forall c, In c values <-> exists l, In l ls /\ category l = c)
    /\ Forall (fun o => option_text o = option_value o) (categoryOptions ls)
    /\ (forall ls' : list LocationRecord,
          (forall c, (exists l, In l ls' /\ category l = c)
                     <-> (exists l, In l ls /\ category l = c)) ->
          categoryOptions ls' = categoryOptions ls).
Proof.
  intros ls values. unfold values.
  assert (Inc : forall ls0,
             increasing (map option_value (categoryOptions ls0))).
  { intros ls0. rewrite categoryOptions_values.
    apply sort_increasing.
    apply (categorySet_fold ls0 [] (NoDup_nil _)). }
  split; [apply Inc|]. split.
  - pose proof (Inc ls) as Hs. unfold increasing in Hs.
    induction Hs as [|a r Hr IH Ha]; constructor; [|exact IH].
    intros Hin. rewrite Forall_forall in Ha.
    destruct (Ha a Hin) as [_ C]. congruence.
  - split; [apply categoryOptions_mem|]. split.
    + unfold categoryOptions. apply Forall_forall. intros o Ho.
      apply in_map_iff in Ho. destruct Ho as [c [<- _]]. reflexivity.
    + intros ls' Hsame. unfold categoryOptions. f_equal.
      rewrite <- !categoryOptions_values.
      apply increasing_ext; try apply Inc.
      intros z. now rewrite !categoryOptions_mem.
Qed.

End MenuOrder.

(** X21: every option of the menu shows something.  With the search
    field empty, selecting an option of the menu displays at least one
    record of the loaded page; when the option is not the empty string
    the records displayed are exactly the loaded records of that
    category, in their order. *)
Theorem menu_option_shows_its_records :
  forall (nts : float -> list NumChar) (geo : bool)
         (ls : list LocationRecord) (o : OptionElement),
    In o (categoryOptions ls) ->
    let out := filterEngine "" (option_value o)
                            (markers (init nts geo ls)) in
    out <> []
    /\ (option_value o <> "" ->
        map loc out
        = filter (fun l => String.eqb (category l) (option_value o)) ls).
Proof.
  intros nts geo ls o Ho out.
  assert (Hm : markers (init nts geo ls) = entries_from nts 0 ls).
  { rewrite init_eq. simpl. destruct (nonempty _); reflexivity. }
  assert (Hc : exists l, In l ls /\ category l = option_value o).
  { apply categoryOptions_mem. now apply in_map. }
  destruct Hc as [l [Hl Hcat]].
  split.
  - assert (He : exists e, In e (markers (init nts geo ls)) /\ loc e = l).
    { rewrite Hm. rewrite <- (entries_from_loc nts 0 ls) in Hl.
      apply in_map_iff in Hl. destruct Hl as [e [He Hin]]. now exists e. }
    destruct He as [e [Hin <-]].
    assert (Hout : In e out).
    { apply filterEngine_In. split; [exact Hin|].
      split; [left | now right].
      change (trim "") with "". exact toLowerCase_empty. }
    intros Hnil. rewrite Hnil in Hout. exact Hout.
  - intros Hne. unfold out, filterEngine. rewrite Hm.
    change (trim "") with "". rewrite toLowerCase_empty.
    generalize 0. clear -Hne.
    induction ls as [|l ls IH]; intros i; simpl; [reflexivity|].
    unfold matches at 1. simpl.
    destruct (option_value o) as [|a v] eqn:E; [congruence|]. simpl.
    destruct (String.eqb (category l) (String a v)); simpl;
      now rewrite IH.
Qed.

End Host.

(** ** The examples

    The examples are in ASCII text, white space apart.  On such text the
    host's [toLowerCase] is [toLowerCaseAscii], which has the three
    properties asked of the host above, and the host's order of strings
    is the order of the bytes, [String.leb], which is a total order. *)

Lemma toLowerCaseAscii_app (a b : string) :
  toLowerCaseAscii (a ++ b)
  = (toLowerCaseAscii a ++ toLowerCaseAscii b)%string.
Proof.
  induction a as [|c a IH]; simpl; [reflexivity|]. now rewrite IH.
Qed.

Lemma toLowerCaseAscii_space (a b : string) :
  toLowerCaseAscii (a ++ " " ++ b)
  = (toLowerCaseAscii a ++ " " ++ toLowerCaseAscii b)%string.
Proof. now rewrite !toLowerCaseAscii_app. Qed.

Lemma leb_trans (a b c : string) :
  String.leb a b = true -> String.leb b c = true -> String.leb a c = true.
Proof.
  unfold String.leb.
  revert b c. induction a as [|x a IH]; intros [|y b] [|z c]; simpl;
    try reflexivity; try discriminate.
  unfold Ascii.compare.
  destruct (N.compare_spec (N_of_ascii x) (N_of_ascii y)) as [E1|L1|G1];
    destruct (N.compare_spec (N_of_ascii y) (N_of_ascii z)) as [E2|L2|G2];
    try discriminate; intros H1 H2.
  - rewrite E1, E2, N.compare_refl. now apply (IH b c).
  - rewrite E1. now apply N.compare_lt_iff in L2 as ->.
  - rewrite <- E2. now apply N.compare_lt_iff in L1 as ->.
  - assert (L : (N_of_ascii x < N_of_ascii z)%N) by lia.
    now apply N.compare_lt_iff in L as ->.
Qed.

(** C1 (as stated) fails.  With the record (ab, cd, e) the query bc
    occurs in abcde, so the rule of the specification keeps the record,
    but the code searches in ab cd e and drops it.  And the query made of
    one space is not empty and does not occur in abcde, so the rule of the
    specification drops the record, but the code trims the query to the
    empty one and keeps it. *)
Lemma filterEngine_not_spec_rule :
  let ms := markers (init print_zero true [record "ab" "cd" "e" None]) in
  ~ Kept (fun e => spec_rule toLowerCaseAscii "bc" "" (loc e)) ms
         (filterEngine toLowerCaseAscii "bc" "" ms)
  /\ ~ Kept (fun e => spec_rule toLowerCaseAscii " " "" (loc e)) ms
            (filterEngine toLowerCaseAscii " " "" ms).
Proof.
  intros ms. vm_compute in ms. split; intros H.
  - remember (filterEngine toLowerCaseAscii "bc" "" ms) as out eqn:E.
    vm_compute in E. subst out ms.
    inversion H as [| | x l out Hn Hk]; subst.
    apply Hn. split; [right | now left].
    exists "a", "de". reflexivity.
  - remember (filterEngine toLowerCaseAscii " " "" ms) as out eqn:E.
    vm_compute in E. subst out ms.
    inversion H as [| x l out Hp Hk | x l out Hn Hk]; subst;
      [|inversion Hk].
    destruct Hp as [[Hq | Hs] _]; [discriminate|].
    apply includes_spec in Hs. vm_compute in Hs. discriminate.
Qed.

Lemma filter_change_mirrors_filter_witness :
  let ls := [record "Pond" "Park" "water" None;
             record "Pier" "Harbour" "boats" (Some "pier.jpg");
             record "Pool" "Park" "swim" None] in
  exists st',
    dispatch toLowerCaseAscii (CategoryChange "Park") (init print_zero true ls)
    = Some st'
    /\ map marker_id (markerGroup st') = [0; 2]
    /\ map onclick (locationList st') = markerGroup st'
    /\ length (locationList st') = length (markerGroup st').
Proof.
  intros ls. eexists. split; [reflexivity|].
  split; [reflexivity|].
  pose proof (filter_change_mirrors_filter toLowerCaseAscii eq_refl
                print_zero true ls []
                (init print_zero true ls) (CategoryChange "Park") _
                eq_refl eq_refl eq_refl) as H.
  cbv zeta in H.
  destruct H as [_ [_ [_ [_ [H5 [_ [H7 _]]]]]]]. split; assumption.
Defined.

Lemma filterEngine_empty_is_identity_witness :
  let ms := markers (init print_zero true
                          [record "Pond" "Park" "water" None;
                           record "Pier" "Harbour" "boats" None]) in
  toLowerCaseAscii "" = ""
  /\ map (fun e => name (loc e)) (filterEngine toLowerCaseAscii "" "" ms)
     = ["Pond"; "Pier"].
Proof.
  intros ms. split; [reflexivity|].
  rewrite (filterEngine_empty_is_identity toLowerCaseAscii eq_refl ms).
  reflexivity.
Defined.

Lemma filterEngine_category_exact_witness :
  let ms := markers (init print_zero true
                          [record "Pond" "Park" "water" None;
                           record "Pier" "park" "boats" None]) in
  exists e, In e (filterEngine toLowerCaseAscii "" "Park" ms)
            /\ In e ms /\ category (loc e) = "Park".
Proof.
  eexists. split; [left; reflexivity|].
  apply (filterEngine_category_exact toLowerCaseAscii _ "" "Park").
  - discriminate.
  - left; reflexivity.
Defined.

Lemma fit_only_when_nonempty_witness :
  let ls := [record "Pond" "Park" "water" None;
             record "Pier" "Harbour" "boats" (Some "pier.jpg")] in
  let st := init print_zero true ls in
  exists st1 st2,
    dispatch toLowerCaseAscii (SearchInput "zzz") st = Some st1
    /\ displayed toLowerCaseAscii st1 = [] /\ view st1 = view st
    /\ dispatch toLowerCaseAscii (SearchInput " PIER ") st1 = Some st2
    /\ view st2
       = FitBounds (Pad (Spanning [{| ll_lat := 0; ll_lng := 0 |}]) 0.12).
Proof.
  intros ls st. eexists. eexists.
  split; [reflexivity|]. split; [reflexivity|].
  split.
  - exact (proj2 (fit_only_when_nonempty toLowerCaseAscii print_zero true
                    ls [] st
                    (SearchInput "zzz") _ eq_refl eq_refl eq_refl)).
  - split; [reflexivity|].
    exact (proj2 (fit_only_when_nonempty toLowerCaseAscii print_zero true
                    ls [SearchInput "zzz"] _
                    (SearchInput " PIER ") _ eq_refl eq_refl eq_refl)).
Defined.

Lemma position_success_marker_lives_6s_witness :
  let la := 40.70%float in
  let lo := (-74.00)%float in
  let ls := [record "Pond" "Park" "water" None] in
  let st := locate_click (init print_zero true ls) in
  let st1 := on_position la lo (set_pending 0 st) in
  exists st2,
    run toLowerCaseAscii [SearchInput "po"; Elapse 5999] st1 = Some st2
    /\ disabled (locateBtn st2) = true
    /\ view st1 = SetView {| ll_lat := la; ll_lng := lo |} 14 true
    /\ In (user_marker la lo st) (overlays st2)
    /\ overlays (elapse 1 st2) = []
    /\ locateBtn (elapse 1 st2) = idle_button.
Proof.
  intros la lo ls st st1. eexists. split; [reflexivity|].
  split; [reflexivity|].
  pose proof (position_success_marker_lives_6s toLowerCaseAscii print_zero
                true ls
                [LocateClick] st st1 _ la lo
                [SearchInput "po"; Elapse 5999] 1 eq_refl eq_refl eq_refl
                eq_refl) as H.
  cbv zeta in H. destruct H as [H1 [_ [_ [_ [H4 [_ [H6 _]]]]]]].
  - vm_compute. discriminate.
  - split; [exact H1|]. split; [exact H4|]. split; [reflexivity | exact H6].
Defined.

Lemma position_error_resets_button_witness :
  let st := locate_click
              (init print_zero true [record "Pond" "Park" "water" None]) in
  exists st',
    dispatch toLowerCaseAscii (PositionError "User denied Geolocation") st
    = Some st'
    /\ disabled (locateBtn st) = true
    /\ locateBtn st' = idle_button
    /\ alerts st' = ["Could not get location: User denied Geolocation"]
    /\ overlays st' = [].
Proof.
  intros st. eexists. split; [reflexivity|]. split; [reflexivity|].
  pose proof (position_error_resets_button toLowerCaseAscii st _
                "User denied Geolocation" eq_refl) as H.
  destruct H as [H1 _]. split; [exact H1|]. split; reflexivity.
Defined.

Lemma filterEngine_trims_query_witness :
  let ms := markers (init print_zero true
                          [record "Pond" "Park" "water" None;
                           record "Pier" "Harbour" "boats" None]) in
  let tab := String "009"%char "" in
  filterEngine toLowerCaseAscii (" " ++ nbsp) "" ms = ms
  /\ map (fun e => name (loc e))
         (filterEngine toLowerCaseAscii (nbsp ++ "Pier" ++ tab) "" ms)
     = ["Pier"].
Proof.
  intros ms tab.
  assert (B1 : blank (" " ++ nbsp)%string).
  { apply (tokens_cons _ _ _ [" "%char]); [now apply token1|].
    apply (tokens_cons _ _ _ ["194"%char; "160"%char] []);
      [now apply token2 | constructor]. }
  assert (B2 : blank tab).
  { apply (tokens_cons _ _ _ ["009"%char] []);
      [now apply token1 | constructor]. }
  assert (B3 : blank nbsp).
  { apply (tokens_cons _ _ _ ["194"%char; "160"%char] []);
      [now apply token2 | constructor]. }
  destruct (filterEngine_trims_query toLowerCaseAscii eq_refl ms ""
              (" " ++ nbsp) tab "Pier" B1 B2) as [H1 _].
  destruct (filterEngine_trims_query toLowerCaseAscii eq_refl ms ""
              nbsp tab "Pier" B3 B2) as [_ [_ H2]].
  split.
  - rewrite H1. reflexivity.
  - rewrite H2. reflexivity.
Defined.

Lemma escapeHtml_output_has_no_markup_witness :
  escapeHtml "a>b" = "a&gt;b"
  /\ ("&"%char <> "<"%char /\ "&"%char <> ">"%char /\ "&"%char <> dq
      /\ "&"%char <> "'"%char).
Proof.
  split; [reflexivity|].
  apply (escapeHtml_output_has_no_markup "a>b" "&"%char).
  right; left; reflexivity.
Defined.

Lemma escapeHtml_identity_iff_plain_witness :
  ~ plain "a&b"
  /\ String.length "a&b" < String.length (escapeHtml "a&b").
Proof.
  assert (H : ~ plain "a&b").
  { intros H. inversion H as [|? ? _ H1]; subst.
    inversion H1 as [|? ? H2 _]. discriminate H2. }
  split; [exact H|].
  exact (proj2 (escapeHtml_identity_iff_plain "a&b") H).
Defined.

Lemma escapeHtml_injective_witness :
  escapeHtml ("a" ++ "<b") = escapeHtml "a<b" /\ ("a" ++ "<b")%string = "a<b".
Proof.
  split; [reflexivity|].
  apply (escapeHtml_injective ("a" ++ "<b") "a<b"). reflexivity.
Defined.

Lemma markup_skeleton_is_fixed_witness :
  let l1 := record "Tom & <b>Jerry</b>" "Caf'e" "5 > 3"
                   (Some "img/tom.png") in
  let l2 := record "" "" "" (Some "x") in
  let l3 := record "Pond" "Park" "water" None in
  count "<" (createPopupHTML print_zero l1) = 13
  /\ count "<" (createPopupHTML print_zero l2) = 13
  /\ count "<" (item_html l1) = count "<" (item_html l3).
Proof.
  intros l1 l2 l3.
  assert (S1 : safe_image l1).
  { intros url E. injection E as <-. repeat constructor. }
  assert (S2 : safe_image l2).
  { intros url E. injection E as <-. repeat constructor. }
  assert (S3 : safe_image l3).
  { intros url E. discriminate E. }
  pose proof (markup_skeleton_is_fixed print_zero l1 l2 "<" eq_refl S1 S2)
    as [_ H].
  pose proof (markup_skeleton_is_fixed print_zero l1 l3 "<" eq_refl S1 S3)
    as [H' _].
  split; [reflexivity|].
  split; [rewrite <- (H eq_refl); reflexivity | exact H'].
Defined.

Lemma markers_fixed_after_load_witness :
  let ls := [record "Pond" "Park" "water" None;
             record "Pier" "Harbour" "boats" None] in
  let st := elapse 100 (locate_click
                          (applyFilters toLowerCaseAscii
                             (set_searchInput "pier"
                                              (init print_zero true ls)))) in
  run toLowerCaseAscii [SearchInput "pier"; LocateClick; Elapse 100]
      (init print_zero true ls) = Some st
  /\ map marker_id (markerGroup st) = [1]
  /\ map loc (markers st) = ls.
Proof.
  intros ls st.
  assert (Hrun : run toLowerCaseAscii
                     [SearchInput "pier"; LocateClick; Elapse 100]
                     (init print_zero true ls) = Some st)
    by (vm_compute; reflexivity).
  split; [exact Hrun|]. split; [vm_compute; reflexivity|].
  exact (proj1 (proj2 (markers_fixed_after_load toLowerCaseAscii eq_refl
                         print_zero true ls
                         [SearchInput "pier"; LocateClick; Elapse 100] st
                         Hrun))).
Defined.

Lemma filter_and_locate_are_independent_witness :
  let st := locate_click
              (init print_zero true [record "Pond" "Park" "water" None]) in
  let st1 := applyFilters toLowerCaseAscii (set_searchInput "zzz" st) in
  let st2 := on_position_error "timeout" (set_pending 0 st1) in
  locateBtn st1 = locating_button /\ locationList st1 = []
  /\ locate_fields st1 = locate_fields st
  /\ locateBtn st2 = idle_button
  /\ display_fields st2 = display_fields st1.
Proof.
  intros st st1 st2.
  split; [vm_compute; reflexivity|]. split; [vm_compute; reflexivity|].
  split.
  - apply (filter_and_locate_are_independent toLowerCaseAscii
             (SearchInput "zzz") st st1).
    reflexivity.
  - split; [vm_compute; reflexivity|].
    apply (filter_and_locate_are_independent toLowerCaseAscii
             (PositionError "timeout") st1 st2).
    vm_compute; reflexivity.
Defined.


Lemma locate_control_phases_witness :
  let ls := [record "Pond" "Park" "water" None] in
  let evs := [LocateClick; PositionSuccess 40.70 (-74.00); Elapse 2500;
              SearchInput "po"] in
  exists st,
    run toLowerCaseAscii evs (init print_zero true ls) = Some st
    /\ locateBtn st = locating_button
    /\ length (overlays st) = 1
    /\ dispatch toLowerCaseAscii LocateClick st = None
    /\ Phase st.
Proof.
  intros ls evs.
  destruct (run toLowerCaseAscii evs (init print_zero true ls))
    as [st|] eqn:Hrun;
    [|vm_compute in Hrun; discriminate Hrun].
  exists st. split; [reflexivity|].
  pose proof (locate_control_phases toLowerCaseAscii print_zero true ls evs
                st Hrun)
    as [P _].
  vm_compute in Hrun. injection Hrun as <-.
  split; [reflexivity|]. split; [reflexivity|]. split; [reflexivity|].
  exact P.
Defined.

Lemma quiet_for_6s_clears_the_map_witness :
  let ls := [record "Pond" "Park" "water" None] in
  let evs := [LocateClick; PositionSuccess 40.70 (-74.00); Elapse 2500] in
  exists st,
    run toLowerCaseAscii evs (init print_zero true ls) = Some st
    /\ length (overlays st) = 1
    /\ overlays (elapse 6000 st) = []
    /\ locateBtn (elapse 6000 st) = idle_button.
Proof.
  intros ls evs.
  destruct (run toLowerCaseAscii evs (init print_zero true ls))
    as [st|] eqn:Hrun;
    [|vm_compute in Hrun; discriminate Hrun].
  exists st. split; [reflexivity|].
  assert (Hms : (6000 <= 6000)%Z) by lia.
  pose proof (quiet_for_6s_clears_the_map toLowerCaseAscii print_zero true
                ls evs st 6000
                Hrun Hms) as [Ho [_ [_ Hb]]].
  split; [vm_compute in Hrun; injection Hrun as <-; reflexivity|].
  split; [exact Ho|]. rewrite Hb.
  vm_compute in Hrun. injection Hrun as <-. reflexivity.
Defined.

Lemma alerts_are_the_position_errors_witness :
  let ls := [record "Pond" "Park" "water" None] in
  let evs := [LocateClick; SearchInput "po"; PositionError "denied";
              LocateClick; PositionError "timeout"] in
  exists st,
    run toLowerCaseAscii evs (init print_zero true ls) = Some st
    /\ alerts st = ["Could not get location: denied";
                    "Could not get location: timeout"].
Proof.
  intros ls evs.
  destruct (run toLowerCaseAscii evs (init print_zero true ls))
    as [st|] eqn:Hrun;
    [|vm_compute in Hrun; discriminate Hrun].
  exists st. split; [reflexivity|].
  exact (alerts_are_the_position_errors toLowerCaseAscii print_zero ls evs
           st Hrun).
Defined.

Lemma without_location_services_only_alerts_witness :
  let ls := [record "Pond" "Park" "water" None] in
  let evs := [LocateClick; SearchInput "po"; LocateClick; Elapse 7000] in
  exists st,
    run toLowerCaseAscii evs (init print_zero false ls) = Some st
    /\ locateBtn st = idle_button
    /\ alerts st = [unsupported_message; unsupported_message].
Proof.
  intros ls evs.
  destruct (run toLowerCaseAscii evs (init print_zero false ls))
    as [st|] eqn:Hrun;
    [|vm_compute in Hrun; discriminate Hrun].
  exists st. split; [reflexivity|].
  destruct (without_location_services_only_alerts toLowerCaseAscii
              print_zero ls evs st Hrun)
    as [Hb [_ [_ [_ Ha]]]].
  split; [exact Hb | exact Ha].
Defined.

Lemma locate_click_starts_one_request_witness :
  let ls := [record "Pond" "Park" "water" None] in
  let evs := [LocateClick; PositionError "denied"; SearchInput "po"] in
  exists st st',
    run toLowerCaseAscii evs (init print_zero true ls) = Some st
    /\ dispatch toLowerCaseAscii LocateClick st = Some st'
    /\ locateBtn st' = locating_button
    /\ dispatch toLowerCaseAscii LocateClick st' = None.
Proof.
  intros ls evs.
  destruct (run toLowerCaseAscii evs (init print_zero true ls))
    as [st|] eqn:Hrun;
    [|vm_compute in Hrun; discriminate Hrun].
  destruct (dispatch toLowerCaseAscii LocateClick st) as [st'|] eqn:Hd;
    [|vm_compute in Hrun; injection Hrun as <-; vm_compute in Hd;
      discriminate Hd].
  exists st, st'. split; [reflexivity|]. split; [exact Hd|].
  destruct (locate_click_starts_one_request toLowerCaseAscii print_zero ls
              evs st st'
              Hrun Hd) as [_ [Hb [_ [_ [_ [_ [_ [_ Hn]]]]]]]].
  split; [exact Hb | exact Hn].
Defined.

Lemma filterEngine_query_case_insensitive_witness :
  let ms := markers (init print_zero true
                          [record "Pond" "Park" "water" None;
                           record "Pier 17" "Harbour" "boats" None]) in
  map (fun e => name (loc e)) (filterEngine toLowerCaseAscii "pIeR" "" ms)
  = ["Pier 17"]
  /\ filterEngine toLowerCaseAscii "PIER" "" ms
     = filterEngine toLowerCaseAscii "pIeR" "" ms.
Proof.
  intros ms. split; [vm_compute; reflexivity|].
  apply (filterEngine_query_case_insensitive toLowerCaseAscii
           toLowerCaseAscii_trim ms "PIER" "pIeR" "").
  reflexivity.
Defined.

Lemma filterEngine_finds_by_field_witness :
  let ms := markers (init print_zero true
                          [record "Pond" "Park" "water" None;
                           record "Pier 17" "Harbour" "boats" None]) in
  exists e,
    nth_error ms 1 = Some e
    /\ In e (filterEngine toLowerCaseAscii " HARB " "" ms)
    /\ In e (filterEngine toLowerCaseAscii "Pier 17 Harbour" "Harbour" ms).
Proof.
  intros ms.
  destruct (nth_error ms 1) as [e|] eqn:E;
    [|vm_compute in E; discriminate E].
  exists e. split; [reflexivity|].
  assert (Hin : In e ms) by (now apply nth_error_In with 1).
  vm_compute in E. injection E as <-. split.
  - apply (proj1 (filterEngine_finds_by_field toLowerCaseAscii
                    toLowerCaseAscii_trim toLowerCaseAscii_space ms _ ""
                    Hin (or_introl eq_refl)) " HARB " "Harbour").
    + right; left; reflexivity.
    + apply includes_spec. vm_compute. reflexivity.
  - exact (proj2 (proj2 (filterEngine_finds_by_field toLowerCaseAscii
                           toLowerCaseAscii_trim toLowerCaseAscii_space
                           ms _ "Harbour" Hin (or_intror eq_refl)))).
Defined.

Lemma filterEngine_longer_query_narrows_witness :
  let ms := markers (init print_zero true
                          [record "Pond" "Park" "water" None;
                           record "Pier 17" "Harbour" "boats" None;
                           record "Pool" "Park" "swim" None]) in
  map (fun e => name (loc e)) (filterEngine toLowerCaseAscii "p" "Park" ms)
  = ["Pond"; "Pool"]
  /\ map (fun e => name (loc e))
         (filterEngine toLowerCaseAscii "Po " "Park" ms)
     = ["Pond"; "Pool"]
  /\ map (fun e => name (loc e))
         (filterEngine toLowerCaseAscii "Poo" "Park" ms) = ["Pool"]
  /\ filterEngine toLowerCaseAscii "Poo" "Park"
                  (filterEngine toLowerCaseAscii "Po " "Park" ms)
     = filterEngine toLowerCaseAscii "Poo" "Park" ms.
Proof.
  intros ms. split; [vm_compute; reflexivity|].
  split; [vm_compute; reflexivity|]. split; [vm_compute; reflexivity|].
  apply (filterEngine_longer_query_narrows toLowerCaseAscii ms "Po " "Poo"
                                           "Park").
  apply includes_spec. vm_compute. reflexivity.
Defined.

Lemma filterEngine_query_and_category_compose_witness :
  let ms := markers (init print_zero true
                          [record "Pond" "Park" "water" None;
                           record "Pier 17" "Harbour" "boats" None;
                           record "Pool" "Park" "swim" None]) in
  toLowerCaseAscii "" = ""
  /\ map (fun e => name (loc e))
         (filterEngine toLowerCaseAscii "" "Park"
                       (filterEngine toLowerCaseAscii "o" "" ms))
     = ["Pond"; "Pool"]
  /\ filterEngine toLowerCaseAscii "o" "Park" ms
     = filterEngine toLowerCaseAscii "" "Park"
                    (filterEngine toLowerCaseAscii "o" "" ms).
Proof.
  intros ms. split; [reflexivity|]. split; [vm_compute; reflexivity|].
  exact (proj1 (filterEngine_query_and_category_compose toLowerCaseAscii
                  eq_refl ms "o" "Park")).
Defined.

Lemma categoryOptions_sorted_distinct_complete_witness :
  let ls := [record "Pool" "Park" "swim" None;
             record "Pier" "Harbour" "boats" None;
             record "Pond" "Park" "water" None;
             record "Zoo" "park" "animals" None] in
  map option_value (categoryOptions String.leb ls)
  = ["Harbour"; "Park"; "park"]
  /\ categoryOptions String.leb (rev ls) = categoryOptions String.leb ls.
Proof.
  intros ls. split; [reflexivity|].
  apply (proj2 (proj2 (proj2 (proj2
           (categoryOptions_sorted_distinct_complete
              String.leb String.leb_total String.leb_antisym leb_trans
              ls))))).
  intros c. split; intros [l [Hl E]]; exists l; (split; [|exact E]).
  - now apply in_rev.
  - now apply in_rev in Hl.
Defined.

Lemma menu_option_shows_its_records_witness :
  let ls := [record "Pool" "Park" "swim" None;
             record "Pier" "Harbour" "boats" None;
             record "Pond" "Park" "water" None] in
  let o := {| option_value := "Park"; option_text := "Park" |} in
  In o (categoryOptions String.leb ls)
  /\ map name (map loc (filterEngine toLowerCaseAscii "" "Park"
                                     (markers (init print_zero true ls))))
     = ["Pool"; "Pond"].
Proof.
  intros ls o.
  assert (Ho : In o (categoryOptions String.leb ls))
    by (right; left; reflexivity).
  split; [exact Ho|].
  destruct (menu_option_shows_its_records toLowerCaseAscii String.leb
              eq_refl print_zero true ls o Ho)
    as [_ H].
  assert (Hne : option_value o <> "") by discriminate.
  etransitivity; [apply f_equal; exact (H Hne) | reflexivity].
Defined.
